(** * An LRU cache over [container/list] and a lookup map

    Shallow embedding of package [lru] of cjsaylor/goutil.  The repository
    carries two revisions of the package:

    - [src/lru/lru.go]: [Set] takes the mutex, the other methods do not, and
      [Set] has no [return] after updating an existing key;
    - [src/unnamed/part_000]: every exported method takes the mutex, [Set]
      returns after updating an existing key, and [Noop] and [ListKeys]
      are added.

    Both are embedded, each in a module of its own ([lru_go], [part_000]),
    over one model of [container/list] and of the [Cache] struct. *)

From stdpp Require Import gmap strings list fin_maps.
From Stdlib Require Import ZArith.

Set Default Proof Using "Type*".

(** ** Outcomes of a call *)

(** A call either returns, or never returns because [c.mutex.Lock()] waits
    for a mutex that is held, or ends in a run-time panic. *)
Inductive outcome (A : Type) : Type :=
| Ret (a : A)
| Blocked
| Panic.
Arguments Ret {A} a.
Arguments Blocked {A}.
Arguments Panic {A}.

(** Sequencing, through stdpp's [x ← m; k] notation. *)
Global Instance outcome_bind : MBind outcome := λ A B f m,
  match m with
  | Ret a => f a
  | Blocked => Blocked
  | Panic => Panic
  end.

Section Model.
(** Keys, values, and the state [W] that the eviction callback closes
    over (the tests capture a map or a slice).  Go's [interface{}] keys
    must be comparable and hashable: [Countable K]. *)
Context {K : Type} `{Countable K} {V W : Type}.

(** [type entry struct { key, value interface{} }] *)
Record entry : Type := mk_entry { key : K; value : V }.

(** The dynamic values that flow through the [interface{}] results and
    through [Element.Value]: [nil], a caller's key, a caller's value, or a
    pointer to an [entry].  Entries are never written through their
    pointer, so a pointer to an entry is modelled by the entry it points
    to. *)
Inductive any : Type :=
| Nil
| OfKey (k : K)
| OfValue (v : V)
| OfEntry (e : entry).

(** The type assertion of [x] to a pointer to [entry]: [None] is the
    run-time panic. *)
Definition as_entry (x : any) : option entry :=
  match x with
  | OfEntry e => Some e
  | _ => None
  end.

(** *** [container/list]

    The doubly linked list of Go's standard library, as far as the package
    uses it, after its documentation. *)

(** A [*list.Element] is an address. *)
Definition Element : Type := nat.

(** A [list.List]: the elements linked into it from front to back, the
    [Value] field of every element ever allocated (an element keeps its
    [Value] after it is unlinked), and the next free address. *)
Record List : Type := mk_List {
  elements : list Element;
  values : gmap Element any;
  next_free : Element
}.

(** [list.New()] *)
Definition New : List := mk_List [] ∅ 0.

(** [l.Len()] *)
Definition Len (l : List) : Z := Z.of_nat (length (elements l)).

(** [l.Front()] and [l.Back()]: [None] is the nil element of an empty list. *)
Definition Front (l : List) : option Element := head (elements l).
Definition Back (l : List) : option Element := last (elements l).

(** [e.Value]; an element that was never written holds [nil]. *)
Definition Value (l : List) (e : Element) : any :=
  default Nil (values l !! e).

(** [e.Value = x] *)
Definition SetValue (e : Element) (x : any) (l : List) : List :=
  mk_List (elements l) (<[e := x]> (values l)) (next_free l).

(** [l.PushFront(x)]: a fresh element holding [x], linked at the front. *)
Definition PushFront (x : any) (l : List) : Element * List :=
  let e := next_free l in
  (e, mk_List (e :: elements l) (<[e := x]> (values l)) (S e)).

(** [l.MoveToFront(e)]: no change when [e] is not an element of [l]. *)
Definition MoveToFront (e : Element) (l : List) : List :=
  if bool_decide (e ∈ elements l)
  then mk_List (e :: filter (λ x, x ≠ e) (elements l)) (values l) (next_free l)
  else l.

(** [l.Remove(e)]: unlinks [e] when it is an element of [l]. *)
Definition Remove (e : Element) (l : List) : List :=
  mk_List (filter (λ x, x ≠ e) (elements l)) (values l) (next_free l).

(** *** The cache *)

(** [type EvictionCallback func(key, value interface{})], acting on the
    state it closes over. *)
Definition EvictionCallback : Type := K → V → W → W.

(** [type Cache struct]; [mutex] is [true] while the mutex is held. *)
Record Cache : Type := mk_Cache {
  queue : List;
  lookup : gmap K Element;
  capacity : Z;
  onEviction : EvictionCallback;
  mutex : bool
}.

Definition set_queue (q : List) (c : Cache) : Cache :=
  mk_Cache q (lookup c) (capacity c) (onEviction c) (mutex c).
Definition set_lookup (m : gmap K Element) (c : Cache) : Cache :=
  mk_Cache (queue c) m (capacity c) (onEviction c) (mutex c).
Definition set_mutex (b : bool) (c : Cache) : Cache :=
  mk_Cache (queue c) (lookup c) (capacity c) (onEviction c) b.

(** [NewCache(capacity, onEviction)]; the capacity is not checked. *)
Definition NewCache (capacity : Z) (onEviction : EvictionCallback) : Cache :=
  mk_Cache New ∅ capacity onEviction false.

(** [c.mutex.Lock(); defer c.mutex.Unlock()] around a method body: the
    call waits for ever when the mutex is held, and the deferred unlock
    runs on every return. *)
Definition with_mutex {A : Type}
    (body : Cache → W → outcome (A * Cache * W))
    (c : Cache) (w : W) : outcome (A * Cache * W) :=
  if mutex c then Blocked
  else
    '(a, c', w') ← body (set_mutex true c) w ;
    Ret (a, set_mutex false c', w').

End Model.

Arguments entry : clear implicits.
Arguments any : clear implicits.
Arguments List : clear implicits.
Arguments EvictionCallback : clear implicits.
Arguments Cache K {_ _} V W.

(** ** Revision [src/unnamed/part_000] *)
Module part_000.
Section Methods.
Context {K : Type} `{Countable K} {V W : Type}.

(** [func Noop() EvictionCallback] *)
Definition Noop : EvictionCallback K V W := λ _ _ w, w.

(** [func (c *Cache) removeOldest() (interface{}, bool)] *)
Definition Cache_removeOldest (c : Cache K V W) (w : W)
    : outcome (any K V * bool * Cache K V W * W) :=
  if bool_decide (Len (queue c) = 0%Z) then Ret (Nil, false, c, w)
  else
    match Back (queue c) with
    | None => Panic
    | Some tail =>
        let q := Remove tail (queue c) in
        match as_entry (Value q tail) with
        | None => Panic
        | Some en =>
            let c := set_lookup (delete (key en) (lookup c)) (set_queue q c) in
            let w := onEviction c (key en) (value en) w in
            Ret (OfValue (value en), true, c, w)
        end
    end.

(** [func (c *Cache) Set(key, value interface{})] *)
Definition Cache_Set (k : K) (v : V) : Cache K V W → W → outcome (unit * Cache K V W * W) :=
  with_mutex (λ c w,
    match lookup c !! k with
    | Some item =>
        let q := MoveToFront item (queue c) in
        let q := SetValue item (OfEntry (mk_entry k v)) q in
        Ret (tt, set_queue q c, w)
    | None =>
        let '(item, q) := PushFront (OfEntry (mk_entry k v)) (queue c) in
        let c := set_lookup (<[k := item]> (lookup c)) (set_queue q c) in
        if bool_decide (capacity c < Len (queue c))%Z then
          '(_, _, c, w) ← Cache_removeOldest c w ;
          Ret (tt, c, w)
        else Ret (tt, c, w)
    end).

(** [func (c *Cache) Get(key interface{}) (interface{}, bool)] *)
Definition Cache_Get (k : K) : Cache K V W → W → outcome (any K V * bool * Cache K V W * W) :=
  with_mutex (λ c w,
    match lookup c !! k with
    | Some item =>
        let q := MoveToFront item (queue c) in
        Ret (Value q item, true, set_queue q c, w)
    | None => Ret (Nil, false, c, w)
    end).

(** [func (c *Cache) Remove(key interface{}) (interface{}, bool)] *)
Definition Cache_Remove (k : K) : Cache K V W → W → outcome (any K V * bool * Cache K V W * W) :=
  with_mutex (λ c w,
    match lookup c !! k with
    | Some item =>
        let q := Remove item (queue c) in
        let c := set_lookup (delete k (lookup c)) (set_queue q c) in
        match as_entry (Value q item) with
        | None => Panic
        | Some en => Ret (OfValue (value en), true, c, w)
        end
    | None => Ret (Nil, false, c, w)
    end).

(** [func (c *Cache) RemoveOldest() (interface{}, bool)] *)
Definition Cache_RemoveOldest : Cache K V W → W → outcome (any K V * bool * Cache K V W * W) :=
  with_mutex Cache_removeOldest.

(** The loop of [ListKeys]: [items] are the elements from [item] to the
    back of the list, so [item.Next()] is the head of the rest; [ret[i] = x]
    panics when [i] is out of range. *)
Fixpoint ListKeys_loop (q : List K V) (i : nat) (items : list Element)
    (ret : list (any K V)) : outcome (list (any K V)) :=
  match items with
  | [] => Ret ret
  | item :: rest =>
      match as_entry (Value q item) with
      | None => Panic
      | Some en =>
          if bool_decide (i < length ret)
          then ListKeys_loop q (S i) rest (<[i := OfKey (key en)]> ret)
          else Panic
      end
  end.

(** [func (c *Cache) ListKeys() []interface{}] *)
Definition Cache_ListKeys : Cache K V W → W → outcome (list (any K V) * Cache K V W * W) :=
  with_mutex (λ c w,
    let ret := replicate (Z.to_nat (Len (queue c))) Nil in
    ret ← ListKeys_loop (queue c) 0 (elements (queue c)) ret ;
    Ret (ret, c, w)).

End Methods.
End part_000.

(** ** Revision [src/lru/lru.go] *)
Module lru_go.
Section Methods.
Context {K : Type} `{Countable K} {V W : Type}.

(** [func (c *Cache) RemoveOldest() (interface{}, bool)]: no mutex. *)
Definition Cache_RemoveOldest (c : Cache K V W) (w : W)
    : outcome (any K V * bool * Cache K V W * W) :=
  if bool_decide (Len (queue c) = 0%Z) then Ret (Nil, false, c, w)
  else
    match Back (queue c) with
    | None => Panic
    | Some tail =>
        let q := Remove tail (queue c) in
        match as_entry (Value q tail) with
        | None => Panic
        | Some en =>
            let c := set_lookup (delete (key en) (lookup c)) (set_queue q c) in
            let w := onEviction c (key en) (value en) w in
            Ret (OfValue (value en), true, c, w)
        end
    end.

(** [func (c *Cache) Set(key, value interface{})]: the branch for a key
    that is present does not return, and control falls into the
    insertion. *)
Definition Cache_Set (k : K) (v : V) : Cache K V W → W → outcome (unit * Cache K V W * W) :=
  with_mutex (λ c w,
    let c :=
      match lookup c !! k with
      | Some item =>
          let q := MoveToFront item (queue c) in
          let q := SetValue item (OfEntry (mk_entry k v)) q in
          set_queue q c
      | None => c
      end in
    let '(item, q) := PushFront (OfEntry (mk_entry k v)) (queue c) in
    let c := set_lookup (<[k := item]> (lookup c)) (set_queue q c) in
    if bool_decide (capacity c < Len (queue c))%Z then
      '(_, _, c, w) ← Cache_RemoveOldest c w ;
      Ret (tt, c, w)
    else Ret (tt, c, w)).

(** [func (c *Cache) Get(key interface{}) (interface{}, bool)]: no mutex. *)
Definition Cache_Get (k : K) (c : Cache K V W) (w : W)
    : outcome (any K V * bool * Cache K V W * W) :=
  match lookup c !! k with
  | Some item =>
      let q := MoveToFront item (queue c) in
      Ret (Value q item, true, set_queue q c, w)
  | None => Ret (Nil, false, c, w)
  end.

(** [func (c *Cache) Remove(key interface{}) (interface{}, bool)]: no mutex. *)
Definition Cache_Remove (k : K) (c : Cache K V W) (w : W)
    : outcome (any K V * bool * Cache K V W * W) :=
  match lookup c !! k with
  | Some item =>
      let q := Remove item (queue c) in
      let c := set_lookup (delete k (lookup c)) (set_queue q c) in
      match as_entry (Value q item) with
      | None => Panic
      | Some en => Ret (OfValue (value en), true, c, w)
      end
  | None => Ret (Nil, false, c, w)
  end.

End Methods.
End lru_go.

(** ** The recency list and the lookup index *)
Section Invariant.
Context {K : Type} `{Countable K} {V W : Type}.
Implicit Types (c : Cache K V W) (q : List K V) (e : Element) (k : K) (v : V).

(** The entries of the list from front to back, and their keys. *)
Definition entries q : list (entry K V) :=
  omap (λ e, as_entry (Value q e)) (elements q).
Definition keys q : list K := key <$> entries q.

(** The element [e] holds an entry for the key [k]. *)
Definition holds q e k : Prop := ∃ v, Value q e = OfEntry (mk_entry k v).

(** What every revision keeps: the linked elements are distinct allocated
    addresses, each holds an entry, and the index sends a key to a linked
    element that holds an entry for that key. *)
Record queue_inv c : Prop := mk_queue_inv {
  qi_nodup : NoDup (elements (queue c));
  qi_fresh : ∀ e, e ∈ elements (queue c) → e < next_free (queue c);
  qi_entry : ∀ e, e ∈ elements (queue c) → is_Some (as_entry (Value (queue c) e));
  qi_index : ∀ k e, lookup c !! k = Some e →
               e ∈ elements (queue c) ∧ holds (queue c) e k
}.

(** The correspondence of index and list: moreover every linked element is
    the one the index has for its key. *)
Record cache_inv c : Prop := mk_cache_inv {
  ci_queue : queue_inv c;
  ci_listed : ∀ e k, e ∈ elements (queue c) → holds (queue c) e k →
                lookup c !! k = Some e
}.

(** The number of stored entries is within the capacity. *)
Definition within_capacity c : Prop := (Len (queue c) ≤ capacity c)%Z.

(** *** The steps the methods are made of *)

(** [item := c.queue.PushFront(&entry{key, value}); c.lookup[key] = item] *)
Definition pushed c k v : Cache K V W :=
  let '(item, q) := PushFront (OfEntry (mk_entry k v)) (queue c) in
  set_lookup (<[k := item]> (lookup c)) (set_queue q c).

(** [c.queue.Remove(item); delete(c.lookup, key)] for an element that holds
    an entry for [key]. *)
Definition unlinked c e k : Cache K V W :=
  set_lookup (delete k (lookup c)) (set_queue (Remove e (queue c)) c).

(** The first [if] of [Set]: the element of a key that is present is moved
    to the front and given the new entry. *)
Definition refreshed c k v : Cache K V W :=
  match lookup c !! k with
  | Some item =>
      set_queue (SetValue item (OfEntry (mk_entry k v))
                   (MoveToFront item (queue c))) c
  | None => c
  end.

(** The fields no method writes. *)
Definition same_config c c' : Prop :=
  capacity c' = capacity c ∧ onEviction c' = onEviction c ∧ mutex c' = mutex c.

(** A sequence of [Set] calls, for either revision's [Set]. *)
Fixpoint Set_all
    (Cache_Set : K → V → Cache K V W → W → outcome (unit * Cache K V W * W))
    (kvs : list (K * V)) (c : Cache K V W) (w : W) : outcome (Cache K V W * W) :=
  match kvs with
  | [] => Ret (c, w)
  | (k, v) :: kvs =>
      '(_, c, w) ← Cache_Set k v c w;
      Set_all Cache_Set kvs c w
  end.

(** The caches that [NewCache] and the exported methods of
    [src/unnamed/part_000] produce. *)
Inductive reachable (cap : Z) (cb : EvictionCallback K V W) : Cache K V W → Prop :=
| reach_NewCache : reachable cap cb (NewCache cap cb)
| reach_Set c w k v c' w' :
    reachable cap cb c →
    part_000.Cache_Set k v c w = Ret (tt, c', w') → reachable cap cb c'
| reach_Get c w k r c' w' :
    reachable cap cb c →
    part_000.Cache_Get k c w = Ret (r, c', w') → reachable cap cb c'
| reach_Remove c w k r c' w' :
    reachable cap cb c →
    part_000.Cache_Remove k c w = Ret (r, c', w') → reachable cap cb c'
| reach_RemoveOldest c w r c' w' :
    reachable cap cb c →
    part_000.Cache_RemoveOldest c w = Ret (r, c', w') → reachable cap cb c'
| reach_ListKeys c w r c' w' :
    reachable cap cb c →
    part_000.Cache_ListKeys c w = Ret (r, c', w') → reachable cap cb c'.

(** The caches that [NewCache] and the methods of [src/lru/lru.go]
    produce. *)
Inductive go_reachable (cap : Z) (cb : EvictionCallback K V W)
    : Cache K V W → Prop :=
| go_reach_NewCache : go_reachable cap cb (NewCache cap cb)
| go_reach_Set c w k v c' w' :
    go_reachable cap cb c →
    lru_go.Cache_Set k v c w = Ret (tt, c', w') → go_reachable cap cb c'
| go_reach_Get c w k r c' w' :
    go_reachable cap cb c →
    lru_go.Cache_Get k c w = Ret (r, c', w') → go_reachable cap cb c'
| go_reach_Remove c w k r c' w' :
    go_reachable cap cb c →
    lru_go.Cache_Remove k c w = Ret (r, c', w') → go_reachable cap cb c'
| go_reach_RemoveOldest c w r c' w' :
    go_reachable cap cb c →
    lru_go.Cache_RemoveOldest c w = Ret (r, c', w') → go_reachable cap cb c'.

End Invariant.

(** ** Scenarios of the test files, with an eviction callback that appends
    what it is given, as in [TestGet] *)

Definition record_evictions
    : EvictionCallback string string (list (string * string)) :=
  λ k v w, w ++ [(k, v)].

(** The cache of capacity 2 after [Set("a", "foo")] and [Set("b", "bar")]. *)
Definition two_entries : Cache string string (list (string * string)) :=
  pushed (pushed (NewCache 2 record_evictions) "a" "foo") "b" "bar".

(** The cache of capacity 0 after [Set("x", "y")]. *)
Definition drained : Cache string string (list (string * string)) :=
  unlinked (pushed (NewCache 0 record_evictions) "x" "y") 0 "x".

(** The cache of capacity 2 after [Set("a", "foo")]. *)
Definition one_entry : Cache string string (list (string * string)) :=
  pushed (NewCache 2 record_evictions) "a" "foo".

(** The cache of capacity 1 made with [Noop()], after [Set("a", 1)]. *)
Definition noop_full : Cache string Z unit :=
  pushed (NewCache 1 part_000.Noop) "a" 1%Z.

(** The cache of capacity 2 after [Set("a", "foo")] and [Set("a", "bar")]
    of [src/lru/lru.go]: two elements hold an entry for ["a"]. *)
Definition go_duplicated : Cache string string (list (string * string)) :=
  pushed (refreshed one_entry "a" "bar") "a" "bar".

Section ListFacts.
Context {K : Type} `{Countable K} {V : Type}.
Implicit Types (q : List K V) (e x : Element) (l : list Element).

Lemma filter_ne_notin l e : e ∉ l → filter (λ x, x ≠ e) l = l.
Proof.
  induction l as [|a l IH]; intros Hn; [done|].
  apply not_elem_of_cons in Hn as [Hne Hn].
  rewrite filter_cons_True by congruence. by rewrite IH.
Qed.

Lemma length_filter_ne l e :
  NoDup l → e ∈ l → S (length (filter (λ x, x ≠ e) l)) = length l.
Proof.
  induction 1 as [|a l Hn Hnd IH]; intros Hin; [by apply elem_of_nil in Hin|].
  destruct (decide (a = e)) as [->|Hne].
  - rewrite filter_cons_False by (intros Hc; by apply Hc).
    by rewrite filter_ne_notin.
  - rewrite filter_cons_True by done. simpl.
    apply elem_of_cons in Hin as [?|Hin]; [congruence|]. by rewrite IH.
Qed.

Lemma filter_ne_snoc l e : e ∉ l → filter (λ x, x ≠ e) (l ++ [e]) = l.
Proof.
  intros Hn. rewrite filter_app, filter_ne_notin by done.
  rewrite filter_cons_False by (intros Hc; by apply Hc).
  by rewrite filter_nil, app_nil_r.
Qed.

Lemma elem_of_MoveToFront q e x :
  x ∈ elements (MoveToFront e q) ↔ x ∈ elements q.
Proof.
  unfold MoveToFront. case_bool_decide as He; [simpl|done].
  rewrite elem_of_cons, list_elem_of_filter.
  destruct (decide (x = e)) as [->|]; intuition congruence.
Qed.

Lemma NoDup_MoveToFront q e :
  NoDup (elements q) → NoDup (elements (MoveToFront e q)).
Proof.
  intros Hnd. unfold MoveToFront. case_bool_decide; [simpl|done].
  apply NoDup_cons. split; [|by apply NoDup_filter].
  rewrite list_elem_of_filter. by intros [Hne _].
Qed.

Lemma length_MoveToFront q e :
  NoDup (elements q) → length (elements (MoveToFront e q)) = length (elements q).
Proof.
  intros Hnd. unfold MoveToFront. case_bool_decide; [simpl|done].
  by apply length_filter_ne.
Qed.

Lemma Value_MoveToFront q e x : Value (MoveToFront e q) x = Value q x.
Proof. unfold MoveToFront. by case_bool_decide. Qed.

Lemma next_free_MoveToFront q e : next_free (MoveToFront e q) = next_free q.
Proof. unfold MoveToFront. by case_bool_decide. Qed.

Lemma head_MoveToFront q e :
  e ∈ elements q → Front (MoveToFront e q) = Some e.
Proof. intros He. unfold Front, MoveToFront. by rewrite bool_decide_true. Qed.

Lemma Value_SetValue q e a x :
  Value (SetValue e a q) x = if decide (e = x) then a else Value q x.
Proof.
  unfold Value, SetValue; simpl. rewrite lookup_insert.
  by destruct (decide (e = x)).
Qed.

Lemma elem_of_Remove q e x :
  x ∈ elements (Remove e q) ↔ x ≠ e ∧ x ∈ elements q.
Proof. unfold Remove; simpl. by rewrite list_elem_of_filter. Qed.

Lemma length_Remove q e :
  NoDup (elements q) → e ∈ elements q →
  S (length (elements (Remove e q))) = length (elements q).
Proof. intros. by apply length_filter_ne. Qed.

End ListFacts.

(** ** The steps of the methods keep the invariants *)
Section Steps.
Context {K : Type} `{Countable K} {V W : Type}.
Implicit Types (c : Cache K V W) (q : List K V) (e : Element) (k : K) (v : V).

Lemma holds_inj q e k k' : holds q e k → holds q e k' → k = k'.
Proof. intros [v Hv] [v' Hv']. congruence. Qed.

Lemma holds_as_entry q e k :
  holds q e k ↔ ∃ en, as_entry (Value q e) = Some en ∧ key en = k.
Proof.
  unfold holds. split.
  - intros [v ->]. by eexists.
  - intros (en & Hen & <-). destruct (Value q e); try done.
    simpl in Hen. injection Hen as ->. destruct en. by eexists.
Qed.

(** [c.queue.MoveToFront(item)] *)
Lemma queue_inv_move c e :
  queue_inv c → queue_inv (set_queue (MoveToFront e (queue c)) c).
Proof.
  intros [Hnd Hfr Hen Hix]. constructor; simpl.
  - by apply NoDup_MoveToFront.
  - intros x. rewrite elem_of_MoveToFront, next_free_MoveToFront. auto.
  - intros x. rewrite elem_of_MoveToFront, Value_MoveToFront. auto.
  - intros k x Hk. unfold holds. rewrite elem_of_MoveToFront.
    setoid_rewrite Value_MoveToFront. by apply Hix.
Qed.

Lemma cache_inv_move c e :
  cache_inv c → cache_inv (set_queue (MoveToFront e (queue c)) c).
Proof.
  intros [Hq Hl]. constructor; [by apply queue_inv_move|simpl].
  intros x k. unfold holds. rewrite elem_of_MoveToFront.
  setoid_rewrite Value_MoveToFront. apply Hl.
Qed.

(** [item.Value = &entry{key, value}] for the element the index has for
    [key]. *)
Lemma queue_inv_update c k v e :
  queue_inv c → lookup c !! k = Some e →
  queue_inv (set_queue (SetValue e (OfEntry (mk_entry k v)) (queue c)) c).
Proof.
  intros [Hnd Hfr Hen Hix] Hk. constructor; simpl; [done|done|..].
  - intros x Hx. rewrite Value_SetValue. case_decide; [by eexists|auto].
  - intros k' x Hk'. destruct (Hix _ _ Hk') as [Hx Hh]. split; [done|].
    unfold holds. rewrite Value_SetValue. case_decide as Hex; [|done].
    subst x. destruct (Hix _ _ Hk) as [_ Hh'].
    rewrite (holds_inj _ _ _ _ Hh Hh'). by eexists.
Qed.

Lemma cache_inv_update c k v e :
  cache_inv c → lookup c !! k = Some e →
  cache_inv (set_queue (SetValue e (OfEntry (mk_entry k v)) (queue c)) c).
Proof.
  intros [Hq Hl] Hk. constructor; [by apply queue_inv_update|simpl].
  intros x k' Hx. unfold holds. rewrite Value_SetValue.
  case_decide as Hex; [|by apply Hl].
  intros [v' Hv']. injection Hv' as <- _. by subst x.
Qed.

Lemma elements_pushed c k v :
  elements (queue (pushed c k v)) = next_free (queue c) :: elements (queue c).
Proof. done. Qed.

Lemma Value_pushed_old c k v e :
  e ≠ next_free (queue c) →
  Value (queue (pushed c k v)) e = Value (queue c) e.
Proof. intros. unfold Value; simpl. by rewrite lookup_insert_ne. Qed.

Lemma Value_pushed_new c k v :
  Value (queue (pushed c k v)) (next_free (queue c)) = OfEntry (mk_entry k v).
Proof. unfold Value; simpl. by rewrite lookup_insert_eq. Qed.

Lemma queue_inv_pushed c k v : queue_inv c → queue_inv (pushed c k v).
Proof.
  intros [Hnd Hfr Hen Hix].
  assert (Hnew : next_free (queue c) ∉ elements (queue c)).
  { intros Hin. apply Hfr in Hin. lia. }
  constructor.
  - rewrite elements_pushed. by apply NoDup_cons.
  - intros e. rewrite elements_pushed, elem_of_cons. simpl.
    intros [->|He]; [lia|]. apply Hfr in He. lia.
  - intros e. rewrite elements_pushed, elem_of_cons.
    intros [->|He]; [rewrite Value_pushed_new; by eexists|].
    rewrite Value_pushed_old by (intros ->; done). auto.
  - intros k' e. rewrite elements_pushed, elem_of_cons. unfold holds.
    simpl (lookup _). rewrite lookup_insert. case_decide as Hk.
    + intros [= <-]. subst k'. split; [by left|].
      rewrite Value_pushed_new. by eexists.
    + intros Hk'. destruct (Hix _ _ Hk') as [He Hh]. split; [by right|].
      rewrite Value_pushed_old by (intros ->; done). done.
Qed.

Lemma cache_inv_pushed c k v :
  cache_inv c → lookup c !! k = None → cache_inv (pushed c k v).
Proof.
  intros [Hq Hl] Hk. constructor; [by apply queue_inv_pushed|].
  assert (Hnew : next_free (queue c) ∉ elements (queue c)).
  { intros Hin. apply (qi_fresh _ Hq) in Hin. lia. }
  intros e k'. rewrite elements_pushed, elem_of_cons. unfold holds.
  simpl (lookup _). intros [->|He].
  - rewrite Value_pushed_new. intros [v' [= <- _]]. by rewrite lookup_insert_eq.
  - rewrite Value_pushed_old by (intros ->; done). intros Hh.
    specialize (Hl _ _ He Hh). rewrite lookup_insert_ne; [done|congruence].
Qed.

Lemma queue_inv_unlinked c e k :
  queue_inv c → holds (queue c) e k → queue_inv (unlinked c e k).
Proof.
  intros [Hnd Hfr Hen Hix] Hh. constructor; simpl.
  - by apply NoDup_filter.
  - intros x [_ Hx]%elem_of_Remove. auto.
  - intros x [_ Hx]%elem_of_Remove. by apply Hen.
  - intros k' x. rewrite lookup_delete. case_decide as Hk; [done|].
    intros Hk'. destruct (Hix _ _ Hk') as [Hx Hh']. split; [|done].
    apply elem_of_Remove. split; [|done]. intros ->.
    apply Hk. eapply holds_inj; eauto.
Qed.

Lemma cache_inv_unlinked c e k :
  cache_inv c → e ∈ elements (queue c) → holds (queue c) e k →
  cache_inv (unlinked c e k).
Proof.
  intros [Hq Hl] He Hh. constructor; [by apply queue_inv_unlinked|simpl].
  intros x k' [Hne Hx]%elem_of_Remove Hh'.
  rewrite lookup_delete_ne; [by apply Hl|].
  intros <-. apply Hne. pose proof (Hl _ _ He Hh). pose proof (Hl _ _ Hx Hh').
  congruence.
Qed.

End Steps.

(** ** What the methods of [src/unnamed/part_000] compute *)
Section Part000Equations.
Context {K : Type} `{Countable K} {V W : Type}.
Implicit Types (c : Cache K V W) (q : List K V) (e : Element) (k : K) (v : V) (w : W).

Lemma with_mutex_held {A} (body : Cache K V W → W → outcome (A * Cache K V W * W)) c w :
  mutex c = true → with_mutex body c w = Blocked.
Proof. intros Hm. unfold with_mutex. by rewrite Hm. Qed.

Lemma with_mutex_free {A} (body : Cache K V W → W → outcome (A * Cache K V W * W))
    c w a c' w' :
  mutex c = false →
  body (set_mutex true c) w = Ret (a, c', w') →
  with_mutex body c w = Ret (a, set_mutex false c', w').
Proof. intros Hm Hb. unfold with_mutex. by rewrite Hm, Hb. Qed.

Lemma unlock_eq c c' :
  mutex c' = false → queue c = queue c' → lookup c = lookup c' →
  capacity c = capacity c' → onEviction c = onEviction c' →
  set_mutex false c = c'.
Proof. destruct c, c'; simpl. by intros -> -> -> -> ->. Qed.

Lemma removeOldest_empty c w :
  elements (queue c) = [] →
  part_000.Cache_removeOldest c w = Ret (Nil, false, c, w).
Proof.
  intros He. unfold part_000.Cache_removeOldest, Len. by rewrite He.
Qed.

Lemma removeOldest_back c w l tail en :
  elements (queue c) = l ++ [tail] →
  Value (queue c) tail = OfEntry en →
  part_000.Cache_removeOldest c w =
    Ret (OfValue (value en), true, unlinked c tail (key en),
         onEviction c (key en) (value en) w).
Proof.
  intros He Hv. unfold part_000.Cache_removeOldest, Len, Back.
  rewrite He, last_snoc, length_app. simpl.
  rewrite bool_decide_false by lia.
  change (Value (Remove tail (queue c)) tail) with (Value (queue c) tail).
  by rewrite Hv.
Qed.

Lemma Get_present c w k e :
  mutex c = false → lookup c !! k = Some e →
  part_000.Cache_Get k c w =
    Ret (Value (queue c) e, true, set_queue (MoveToFront e (queue c)) c, w).
Proof.
  intros Hm Hk. unfold part_000.Cache_Get.
  erewrite with_mutex_free; [|done|simpl; rewrite Hk; reflexivity].
  rewrite Value_MoveToFront. simpl. do 3 f_equal.
  destruct c; simpl in *; by subst.
Qed.

Lemma Get_absent c w k :
  mutex c = false → lookup c !! k = None →
  part_000.Cache_Get k c w = Ret (Nil, false, c, w).
Proof.
  intros Hm Hk. unfold part_000.Cache_Get.
  erewrite with_mutex_free; [|done|simpl; rewrite Hk; reflexivity].
  do 3 f_equal. destruct c; simpl in *; by subst.
Qed.

Lemma Remove_present c w k e en :
  mutex c = false → lookup c !! k = Some e →
  Value (queue c) e = OfEntry en →
  part_000.Cache_Remove k c w = Ret (OfValue (value en), true, unlinked c e k, w).
Proof.
  intros Hm Hk Hv. unfold part_000.Cache_Remove.
  erewrite with_mutex_free; [|done|]; last first.
  { simpl. rewrite Hk.
    change (Value (Remove e (queue c)) e) with (Value (queue c) e).
    rewrite Hv. reflexivity. }
  do 3 f_equal. destruct c; simpl in *; by subst.
Qed.

Lemma Remove_absent c w k :
  mutex c = false → lookup c !! k = None →
  part_000.Cache_Remove k c w = Ret (Nil, false, c, w).
Proof.
  intros Hm Hk. unfold part_000.Cache_Remove.
  erewrite with_mutex_free; [|done|simpl; rewrite Hk; reflexivity].
  do 3 f_equal. destruct c; simpl in *; by subst.
Qed.

Lemma RemoveOldest_empty c w :
  mutex c = false → elements (queue c) = [] →
  part_000.Cache_RemoveOldest c w = Ret (Nil, false, c, w).
Proof.
  intros Hm He. unfold part_000.Cache_RemoveOldest.
  erewrite with_mutex_free; [|done|by apply removeOldest_empty].
  do 3 f_equal. destruct c; simpl in *; by subst.
Qed.

Lemma RemoveOldest_back c w l tail en :
  mutex c = false →
  elements (queue c) = l ++ [tail] →
  Value (queue c) tail = OfEntry en →
  part_000.Cache_RemoveOldest c w =
    Ret (OfValue (value en), true, unlinked c tail (key en),
         onEviction c (key en) (value en) w).
Proof.
  intros Hm He Hv. unfold part_000.Cache_RemoveOldest.
  erewrite with_mutex_free; [|done|by eapply removeOldest_back].
  do 3 f_equal. destruct c; simpl in *; by subst.
Qed.

Lemma Set_present c w k v e :
  mutex c = false → lookup c !! k = Some e →
  part_000.Cache_Set k v c w =
    Ret (tt, set_queue (SetValue e (OfEntry (mk_entry k v))
                          (MoveToFront e (queue c))) c, w).
Proof.
  intros Hm Hk. unfold part_000.Cache_Set.
  erewrite with_mutex_free; [|done|simpl; rewrite Hk; reflexivity].
  do 3 f_equal. destruct c; simpl in *; by subst.
Qed.

Lemma Len_pushed c k v : Len (queue (pushed c k v)) = (Len (queue c) + 1)%Z.
Proof. unfold Len. rewrite elements_pushed. simpl. lia. Qed.

Lemma Set_absent_room c w k v :
  mutex c = false → lookup c !! k = None →
  (Len (queue c) + 1 ≤ capacity c)%Z →
  part_000.Cache_Set k v c w = Ret (tt, pushed c k v, w).
Proof.
  intros Hm Hk Hc. unfold part_000.Cache_Set.
  erewrite with_mutex_free; [|done|]; last first.
  { simpl. rewrite Hk.
    change (Len _) with (Len (queue (pushed c k v))).
    rewrite Len_pushed, bool_decide_false by lia. reflexivity. }
  do 3 f_equal. destruct c; simpl in *; by subst.
Qed.

Lemma Set_absent_evict c w k v l tail en :
  mutex c = false → lookup c !! k = None →
  (capacity c < Len (queue c) + 1)%Z →
  elements (queue (pushed c k v)) = l ++ [tail] →
  Value (queue (pushed c k v)) tail = OfEntry en →
  part_000.Cache_Set k v c w =
    Ret (tt, unlinked (pushed c k v) tail (key en),
         onEviction c (key en) (value en) w).
Proof.
  intros Hm Hk Hc He Hv. unfold part_000.Cache_Set.
  erewrite with_mutex_free; [|done|]; last first.
  { simpl. rewrite Hk.
    change (Len _) with (Len (queue (pushed c k v))).
    rewrite Len_pushed, bool_decide_true by lia.
    change (set_lookup _ _) with (pushed (set_mutex true c) k v).
    erewrite removeOldest_back; [reflexivity|exact He|exact Hv]. }
  do 3 f_equal. destruct c; simpl in *; by subst.
Qed.

End Part000Equations.

(** ** Every method of [src/unnamed/part_000] returns and keeps the
    correspondence *)
Section Part000Invariant.
Context {K : Type} `{Countable K} {V W : Type}.
Implicit Types (c : Cache K V W) (q : List K V) (e : Element) (k : K) (v : V) (w : W).

Lemma entry_at_back c l tail :
  queue_inv c → elements (queue c) = l ++ [tail] →
  ∃ en, Value (queue c) tail = OfEntry en ∧ holds (queue c) tail (key en).
Proof.
  intros Hq He. destruct (qi_entry _ Hq tail) as [en Hen].
  { rewrite He. apply elem_of_app. right. by left. }
  destruct (Value (queue c) tail) eqn:Hv; try done.
  simpl in Hen. injection Hen as ->. exists en. split; [done|].
  destruct en. by eexists.
Qed.

Lemma back_of_nonempty (l : list Element) :
  l ≠ [] → ∃ l' tail, l = l' ++ [tail].
Proof.
  destruct l as [|a l] using rev_ind; [done|]. intros _. by eexists _, _.
Qed.

Lemma Set_keeps_inv c w k v :
  cache_inv c → mutex c = false →
  ∃ c' w', part_000.Cache_Set k v c w = Ret (tt, c', w')
           ∧ cache_inv c' ∧ same_config c c'
           ∧ (within_capacity c → within_capacity c').
Proof.
  intros Hinv Hm. destruct (lookup c !! k) as [e|] eqn:Hk.
  - eexists _, _. split; [by apply Set_present|].
    split; [|split; [done|]].
    + apply (cache_inv_update (set_queue (MoveToFront e (queue c)) c)); [|done].
      by apply cache_inv_move.
    + unfold within_capacity, Len. simpl.
      rewrite length_MoveToFront; [done|]. apply Hinv.
  - destruct (decide (Len (queue c) + 1 ≤ capacity c)%Z) as [Hc|Hc].
    + eexists _, _. split; [by apply Set_absent_room|].
      split; [by apply cache_inv_pushed|]. split; [done|].
      intros _. unfold within_capacity. by rewrite Len_pushed.
    + pose proof (cache_inv_pushed c k v Hinv Hk) as Hinv'.
      destruct (back_of_nonempty (elements (queue (pushed c k v))))
        as (l & tail & He); [by rewrite elements_pushed|].
      destruct (entry_at_back _ _ _ (ci_queue _ Hinv') He) as (en & Hv & Hh).
      assert (Hin : tail ∈ elements (queue (pushed c k v))).
      { rewrite He. apply elem_of_app. right. by left. }
      eexists _, _. split; [eapply Set_absent_evict; eauto; lia|].
      split; [by apply cache_inv_unlinked|]. split; [done|].
      unfold within_capacity. intros Hcap.
      pose proof (length_Remove (queue (pushed c k v)) tail
                    (qi_nodup _ (ci_queue _ Hinv')) Hin) as Hlen.
      pose proof (Len_pushed c k v) as Hlp. unfold Len in *.
      change (capacity (unlinked _ _ _)) with (capacity c).
      change (queue (unlinked (pushed c k v) tail (key en)))
        with (Remove tail (queue (pushed c k v))). lia.
Qed.

Lemma Get_keeps_inv c w k :
  cache_inv c → mutex c = false →
  ∃ r c', part_000.Cache_Get k c w = Ret (r, c', w)
          ∧ cache_inv c' ∧ same_config c c'
          ∧ (within_capacity c → within_capacity c').
Proof.
  intros Hinv Hm. destruct (lookup c !! k) as [e|] eqn:Hk.
  - eexists _, _. split; [by apply Get_present|].
    split; [by apply cache_inv_move|]. split; [done|].
    unfold within_capacity, Len. simpl.
    rewrite length_MoveToFront; [done|]. apply Hinv.
  - eexists _, _. split; [by apply Get_absent|]. done.
Qed.

Lemma Len_unlinked c e k :
  queue_inv c → e ∈ elements (queue c) →
  Len (queue (unlinked c e k)) = (Len (queue c) - 1)%Z.
Proof.
  intros Hq He. pose proof (length_Remove _ _ (qi_nodup _ Hq) He) as Hl.
  unfold Len. change (queue (unlinked c e k)) with (Remove e (queue c)). lia.
Qed.

Lemma Remove_keeps_inv c w k :
  cache_inv c → mutex c = false →
  ∃ r c', part_000.Cache_Remove k c w = Ret (r, c', w)
          ∧ cache_inv c' ∧ same_config c c'
          ∧ (within_capacity c → within_capacity c').
Proof.
  intros Hinv Hm. destruct (lookup c !! k) as [e|] eqn:Hk.
  - destruct (qi_index _ (ci_queue _ Hinv) _ _ Hk) as [He [v Hv]].
    eexists _, _. split; [by eapply Remove_present|].
    split; [apply cache_inv_unlinked; [done..|by eexists]|]. split; [done|].
    unfold within_capacity. rewrite Len_unlinked by (done || apply Hinv).
    change (capacity (unlinked _ _ _)) with (capacity c). lia.
  - eexists _, _. split; [by apply Remove_absent|]. done.
Qed.

Lemma RemoveOldest_keeps_inv c w :
  cache_inv c → mutex c = false →
  ∃ r c' w', part_000.Cache_RemoveOldest c w = Ret (r, c', w')
          ∧ cache_inv c' ∧ same_config c c'
          ∧ (within_capacity c → within_capacity c').
Proof.
  intros Hinv Hm. destruct (decide (elements (queue c) = [])) as [He|He].
  - eexists _, _, _. split; [by apply RemoveOldest_empty|]. done.
  - destruct (back_of_nonempty _ He) as (l & tail & Hl).
    destruct (entry_at_back _ _ _ (ci_queue _ Hinv) Hl) as (en & Hv & Hh).
    assert (Hin : tail ∈ elements (queue c)).
    { rewrite Hl. apply elem_of_app. right. by left. }
    eexists _, _, _. split; [by eapply RemoveOldest_back|].
    split; [by apply cache_inv_unlinked|]. split; [done|].
    unfold within_capacity. rewrite Len_unlinked by (done || apply Hinv).
    change (capacity (unlinked _ _ _)) with (capacity c). lia.
Qed.

End Part000Invariant.

(** ** [ListKeys] *)
Section ListKeysFacts.
Context {K : Type} `{Countable K} {V W : Type}.
Implicit Types (c : Cache K V W) (q : List K V) (e : Element) (k : K) (v : V) (w : W).

(** The loop writes the keys of the elements it walks into consecutive
    slots, starting at slot [length pre]. *)
Lemma ListKeys_loop_fill q items : ∀ (pre ret : list (any K V)),
  (∀ e, e ∈ items → is_Some (as_entry (Value q e))) →
  length items ≤ length ret →
  part_000.ListKeys_loop q (length pre) items (pre ++ ret) =
    Ret (pre ++ (OfKey <$> (key <$> omap (λ e, as_entry (Value q e)) items))
             ++ drop (length items) ret).
Proof.
  induction items as [|item rest IH]; intros pre ret Hen Hlen; [done|].
  destruct (Hen item) as [en Hitem]; [by left|].
  destruct ret as [|r ret]; [simpl in Hlen; lia|].
  cbn [part_000.ListKeys_loop omap list_omap]. rewrite Hitem.
  rewrite bool_decide_true by (rewrite length_app; simpl; lia).
  replace (<[length pre:=OfKey (key en)]> (pre ++ r :: ret))
    with ((pre ++ [OfKey (key en)]) ++ ret).
  2:{ rewrite insert_app_r_alt by lia. rewrite Nat.sub_diag. simpl.
      by rewrite <- app_assoc. }
  replace (S (length pre)) with (length (pre ++ [OfKey (key en)]))
    by (rewrite length_app; simpl; lia).
  rewrite IH.
  - simpl. by rewrite <- app_assoc.
  - intros e He. apply Hen. by right.
  - simpl in Hlen. lia.
Qed.

Lemma ListKeys_returns c w :
  queue_inv c → mutex c = false →
  part_000.Cache_ListKeys c w = Ret (OfKey <$> keys (queue c), c, w).
Proof.
  intros Hq Hm. unfold part_000.Cache_ListKeys.
  erewrite with_mutex_free; [|done|]; last first.
  { simpl. unfold Len. rewrite Nat2Z.id.
    pose proof (ListKeys_loop_fill (queue c) (elements (queue c)) []
                  (replicate (length (elements (queue c))) Nil)) as Hloop.
    simpl in Hloop. rewrite Hloop.
    - reflexivity.
    - apply Hq.
    - by rewrite length_replicate. }
  rewrite drop_ge by (by rewrite length_replicate).
  rewrite app_nil_r. unfold keys, entries. do 2 f_equal.
  destruct c; simpl in *; by subst.
Qed.

(** Under the correspondence, the keys of the list are the keys of the
    index, each once. *)
Lemma elem_of_keys q k :
  k ∈ keys q ↔ ∃ e, e ∈ elements q ∧ holds q e k.
Proof.
  unfold keys, entries. rewrite list_elem_of_fmap. split.
  - intros (en & -> & Hen). apply list_elem_of_omap in Hen as (e & He & Hv).
    exists e. split; [done|]. apply holds_as_entry. eauto.
  - intros (e & He & Hh). apply holds_as_entry in Hh as (en & Hv & <-).
    exists en. split; [done|]. apply list_elem_of_omap. eauto.
Qed.

Lemma keys_index c k :
  cache_inv c → k ∈ keys (queue c) ↔ is_Some (lookup c !! k).
Proof.
  intros [Hq Hl]. rewrite elem_of_keys. split.
  - intros (e & He & Hh). exists e. by apply Hl.
  - intros [e Hk]. exists e. by apply (qi_index _ Hq).
Qed.

Lemma NoDup_keys_of c (l : list Element) :
  cache_inv c → NoDup l → (∀ e, e ∈ l → e ∈ elements (queue c)) →
  NoDup (key <$> omap (λ e, as_entry (Value (queue c) e)) l).
Proof.
  intros [Hq Hl]. induction 1 as [|a l Ha Hnd IH]; intros Hsub.
  { simpl. apply NoDup_nil_2. }
  cbn [omap list_omap].
  destruct (as_entry (Value (queue c) a)) as [en|] eqn:Hen.
  2:{ apply IH. intros e He. apply Hsub. by right. }
  rewrite fmap_cons. apply NoDup_cons. split.
  2:{ apply IH. intros e He. apply Hsub. by right. }
  rewrite list_elem_of_fmap. intros (en' & Hk & Hin).
  apply list_elem_of_omap in Hin as (e & He & Hv). apply Ha.
  assert (Some a = Some e) as [= ->]; [|done].
  rewrite <- (Hl a (key en)), <- (Hl e (key en)); [done|..].
  - apply Hsub. by right.
  - apply holds_as_entry. exists en'. by rewrite Hk.
  - apply Hsub. by left.
  - apply holds_as_entry. eauto.
Qed.

Lemma NoDup_keys c : cache_inv c → NoDup (keys (queue c)).
Proof.
  intros Hinv. apply NoDup_keys_of; [done| |done].
  apply (qi_nodup _ (ci_queue _ Hinv)).
Qed.

Lemma length_keys c : queue_inv c → length (keys (queue c)) = length (elements (queue c)).
Proof.
  intros Hq. unfold keys, entries. rewrite length_fmap.
  pose proof (qi_entry _ Hq) as Hen.
  induction (elements (queue c)) as [|a l IH]; [done|].
  cbn [omap list_omap]. destruct (Hen a) as [en ->]; [by left|].
  simpl. rewrite IH; [done|]. intros e He. apply Hen. by right.
Qed.

End ListKeysFacts.

(** ** What the methods of [src/lru/lru.go] compute *)
Section LruGoEquations.
Context {K : Type} `{Countable K} {V W : Type}.
Implicit Types (c : Cache K V W) (q : List K V) (e : Element) (k : K) (v : V) (w : W).

(** Apart from the mutex, [Get], [Remove] and [RemoveOldest] have the same
    text in both revisions. *)
Lemma go_RemoveOldest_eq c w :
  lru_go.Cache_RemoveOldest c w = part_000.Cache_removeOldest c w.
Proof. reflexivity. Qed.

Lemma Get_with_mutex k c w :
  part_000.Cache_Get k c w = with_mutex (lru_go.Cache_Get k) c w.
Proof. reflexivity. Qed.

Lemma Remove_with_mutex k c w :
  part_000.Cache_Remove k c w = with_mutex (lru_go.Cache_Remove k) c w.
Proof. reflexivity. Qed.

Lemma RemoveOldest_with_mutex c w :
  part_000.Cache_RemoveOldest c w = with_mutex lru_go.Cache_RemoveOldest c w.
Proof. reflexivity. Qed.

Lemma capacity_refreshed c k v : capacity (refreshed c k v) = capacity c.
Proof. unfold refreshed. by destruct (lookup c !! k). Qed.

Lemma refreshed_set_mutex c k v b :
  refreshed (set_mutex b c) k v = set_mutex b (refreshed c k v).
Proof. unfold refreshed. simpl. by destruct (lookup c !! k). Qed.

Lemma go_Set_absent c w k v :
  lookup c !! k = None →
  lru_go.Cache_Set k v c w = part_000.Cache_Set k v c w.
Proof.
  intros Hk. unfold lru_go.Cache_Set, part_000.Cache_Set, with_mutex.
  destruct (mutex c); [done|]. simpl. by rewrite Hk.
Qed.

Lemma go_Set_room c w k v :
  mutex c = false →
  (Len (queue (refreshed c k v)) + 1 ≤ capacity c)%Z →
  lru_go.Cache_Set k v c w = Ret (tt, pushed (refreshed c k v) k v, w).
Proof.
  intros Hm Hc. unfold lru_go.Cache_Set.
  erewrite with_mutex_free; [|done|]; last first.
  { change (match lookup (set_mutex true c) !! k with
            | Some item => _ | None => _ end)
      with (refreshed (set_mutex true c) k v).
    rewrite refreshed_set_mutex. unfold PushFront. cbv beta iota zeta.
    change (set_lookup _ _) with (pushed (set_mutex true (refreshed c k v)) k v).
    change (Len _) with (Len (queue (pushed (refreshed c k v) k v))).
    change (capacity _) with (capacity (refreshed c k v)).
    rewrite Len_pushed, capacity_refreshed, bool_decide_false by lia.
    reflexivity. }
  assert (Hidle : mutex (pushed (refreshed c k v) k v) = false).
  { unfold refreshed. by destruct (lookup c !! k). }
  do 3 f_equal. by apply unlock_eq.
Qed.

Lemma go_Set_evict c w k v l tail en :
  mutex c = false →
  (capacity c < Len (queue (refreshed c k v)) + 1)%Z →
  elements (queue (pushed (refreshed c k v) k v)) = l ++ [tail] →
  Value (queue (pushed (refreshed c k v) k v)) tail = OfEntry en →
  lru_go.Cache_Set k v c w =
    Ret (tt, unlinked (pushed (refreshed c k v) k v) tail (key en),
         onEviction c (key en) (value en) w).
Proof.
  intros Hm Hc He Hv. unfold lru_go.Cache_Set.
  erewrite with_mutex_free; [|done|]; last first.
  { change (match lookup (set_mutex true c) !! k with
            | Some item => _ | None => _ end)
      with (refreshed (set_mutex true c) k v).
    rewrite refreshed_set_mutex. unfold PushFront. cbv beta iota zeta.
    change (set_lookup _ _) with (pushed (set_mutex true (refreshed c k v)) k v).
    change (Len _) with (Len (queue (pushed (refreshed c k v) k v))).
    change (capacity _) with (capacity (refreshed c k v)).
    rewrite Len_pushed, capacity_refreshed, bool_decide_true by lia.
    rewrite go_RemoveOldest_eq.
    erewrite removeOldest_back; [reflexivity|exact He|exact Hv]. }
  assert (Hidle : mutex (unlinked (pushed (refreshed c k v) k v) tail (key en)) = false).
  { unfold refreshed. by destruct (lookup c !! k). }
  f_equal. f_equal; [f_equal; by apply unlock_eq|].
  unfold refreshed. by destruct (lookup c !! k).
Qed.

Lemma queue_inv_refreshed c k v : queue_inv c → queue_inv (refreshed c k v).
Proof.
  intros Hq. unfold refreshed. destruct (lookup c !! k) as [e|] eqn:Hk; [|done].
  apply (queue_inv_update (set_queue (MoveToFront e (queue c)) c)); [|done].
  by apply queue_inv_move.
Qed.

Lemma Len_refreshed c k v :
  queue_inv c → Len (queue (refreshed c k v)) = Len (queue c).
Proof.
  intros Hq. unfold refreshed, Len. destruct (lookup c !! k); [|done].
  simpl. rewrite length_MoveToFront; [done|]. apply Hq.
Qed.

(** [Set] of [src/lru/lru.go] returns and keeps what [queue_inv] says, and
    the bound on the length of the list. *)
Lemma go_Set_keeps_queue_inv c w k v :
  queue_inv c → mutex c = false →
  ∃ c' w', lru_go.Cache_Set k v c w = Ret (tt, c', w')
           ∧ queue_inv c' ∧ same_config c c'
           ∧ (within_capacity c → within_capacity c').
Proof.
  intros Hq Hm.
  pose proof (queue_inv_refreshed c k v Hq) as Hq1.
  pose proof (queue_inv_pushed _ k v Hq1) as Hq2.
  pose proof (Len_refreshed c k v Hq) as Hlen.
  assert (Hcfg1 : same_config c (pushed (refreshed c k v) k v)).
  { unfold same_config, refreshed. destruct (lookup c !! k); by simpl. }
  assert (Hcfg2 : ∀ e k',
            same_config c (unlinked (pushed (refreshed c k v) k v) e k')).
  { intros e k'. unfold same_config, refreshed.
    destruct (lookup c !! k); by simpl. }
  destruct (decide (Len (queue (refreshed c k v)) + 1 ≤ capacity c)%Z) as [Hc|Hc].
  - eexists _, _. split; [by apply go_Set_room|]. split; [done|].
    split; [done|]. intros Hcap. unfold within_capacity in *.
    destruct Hcfg1 as (-> & _). rewrite Len_pushed. lia.
  - destruct (back_of_nonempty (elements (queue (pushed (refreshed c k v) k v))))
      as (l & tail & He); [by rewrite elements_pushed|].
    destruct (entry_at_back _ _ _ Hq2 He) as (en & Hv & Hh).
    assert (Hin : tail ∈ elements (queue (pushed (refreshed c k v) k v))).
    { rewrite He. apply elem_of_app. right. by left. }
    eexists _, _. split; [eapply go_Set_evict; eauto; lia|].
    split; [by apply queue_inv_unlinked|]. split; [done|].
    unfold within_capacity. intros Hcap.
    destruct (Hcfg2 tail (key en)) as (-> & _).
    rewrite Len_unlinked, Len_pushed by done. lia.
Qed.

End LruGoEquations.

(** ** Caches built by the package *)
Section Reachable.
Context {K : Type} `{Countable K} {V W : Type}.
Implicit Types (c : Cache K V W) (q : List K V) (e : Element) (k : K) (v : V) (w : W).

Lemma cache_inv_NewCache cap (cb : EvictionCallback K V W) :
  cache_inv (NewCache cap cb).
Proof.
  constructor; [constructor|]; simpl.
  - apply NoDup_nil_2.
  - intros e He. by apply elem_of_nil in He.
  - intros e He. by apply elem_of_nil in He.
  - intros k e Hk. by rewrite lookup_empty in Hk.
  - intros e k He. by apply elem_of_nil in He.
Qed.

(** The index has at most one key for each element of the list. *)
Lemma index_size_le_Len c :
  queue_inv c → (Z.of_nat (size (lookup c)) ≤ Len (queue c))%Z.
Proof.
  intros Hq. unfold Len. apply inj_le.
  rewrite <- length_map_to_list, <- (length_fmap snd).
  apply submseteq_length, NoDup_submseteq.
  - apply (NoDup_fmap_2_strong snd); [|apply NoDup_map_to_list].
    intros [k1 e1] [k2 e2] H1%elem_of_map_to_list H2%elem_of_map_to_list.
    simpl. intros <-. f_equal.
    destruct (qi_index _ Hq _ _ H1) as [_ Hh1].
    destruct (qi_index _ Hq _ _ H2) as [_ Hh2].
    eapply holds_inj; eauto.
  - intros e ([k e'] & -> & Hk%elem_of_map_to_list)%list_elem_of_fmap.
    by destruct (qi_index _ Hq _ _ Hk).
Qed.

Lemma Set_all_within_capacity kvs : ∀ c w,
  cache_inv c → mutex c = false → within_capacity c →
  ∃ c' w', Set_all part_000.Cache_Set kvs c w = Ret (c', w')
           ∧ cache_inv c' ∧ same_config c c' ∧ within_capacity c'.
Proof.
  induction kvs as [|[k v] kvs IH]; intros c w Hinv Hm Hcap.
  { by eexists _, _. }
  destruct (Set_keeps_inv c w k v Hinv Hm) as (c1 & w1 & Hs & Hinv1 & Hcfg & Hc1).
  destruct Hcfg as (Hcp & Hcb & Hmx).
  destruct (IH c1 w1) as (c' & w' & Hr & Hinv' & (Hcp' & Hcb' & Hmx') & Hc');
    [done|congruence|auto|].
  exists c', w'. simpl. rewrite Hs. simpl. split; [done|].
  split; [done|]. split; [|done]. unfold same_config. split_and!; congruence.
Qed.

Lemma go_Set_all_within_capacity kvs : ∀ c w,
  queue_inv c → mutex c = false → within_capacity c →
  ∃ c' w', Set_all lru_go.Cache_Set kvs c w = Ret (c', w')
           ∧ queue_inv c' ∧ same_config c c' ∧ within_capacity c'.
Proof.
  induction kvs as [|[k v] kvs IH]; intros c w Hinv Hm Hcap.
  { by eexists _, _. }
  destruct (go_Set_keeps_queue_inv c w k v Hinv Hm)
    as (c1 & w1 & Hs & Hinv1 & Hcfg & Hc1).
  destruct Hcfg as (Hcp & Hcb & Hmx).
  destruct (IH c1 w1) as (c' & w' & Hr & Hinv' & (Hcp' & Hcb' & Hmx') & Hc');
    [done|congruence|auto|].
  exists c', w'. simpl. rewrite Hs. simpl. split; [done|].
  split; [done|]. split; [|done]. unfold same_config. split_and!; congruence.
Qed.

Lemma reachable_inv cap cb c :
  reachable cap cb c →
  cache_inv c ∧ mutex c = false ∧ capacity c = cap ∧ onEviction c = cb
  ∧ ((0 ≤ cap)%Z → within_capacity c).
Proof.
  induction 1 as [|c w k v c' w' _ IH Hop|c w k r c' w' _ IH Hop
                  |c w k r c' w' _ IH Hop|c w r c' w' _ IH Hop
                  |c w r c' w' _ IH Hop].
  - split; [apply cache_inv_NewCache|]. split_and!; done.
  - destruct IH as (Hinv & Hm & Hcp & Hcb & Hcap).
    destruct (Set_keeps_inv c w k v Hinv Hm)
      as (c1 & w1 & Hs & Hinv1 & (? & ? & ?) & Hc1).
    rewrite Hs in Hop. injection Hop as -> ->.
    split_and!; try congruence; auto.
  - destruct IH as (Hinv & Hm & Hcp & Hcb & Hcap).
    destruct (Get_keeps_inv c w k Hinv Hm)
      as (r1 & c1 & Hs & Hinv1 & (? & ? & ?) & Hc1).
    rewrite Hs in Hop. injection Hop as -> -> ->.
    split_and!; try congruence; auto.
  - destruct IH as (Hinv & Hm & Hcp & Hcb & Hcap).
    destruct (Remove_keeps_inv c w k Hinv Hm)
      as (r1 & c1 & Hs & Hinv1 & (? & ? & ?) & Hc1).
    rewrite Hs in Hop. injection Hop as -> -> ->.
    split_and!; try congruence; auto.
  - destruct IH as (Hinv & Hm & Hcp & Hcb & Hcap).
    destruct (RemoveOldest_keeps_inv c w Hinv Hm)
      as (r1 & c1 & w1 & Hs & Hinv1 & (? & ? & ?) & Hc1).
    rewrite Hs in Hop. injection Hop as -> -> ->.
    split_and!; try congruence; auto.
  - destruct IH as (Hinv & Hm & Hcp & Hcb & Hcap).
    rewrite ListKeys_returns in Hop by (done || apply Hinv).
    injection Hop as _ <- _. done.
Qed.

(** Every cache that [src/lru/lru.go] builds satisfies [queue_inv], with
    the mutex free. *)
Lemma go_reachable_inv cap (cb : EvictionCallback K V W) c :
  go_reachable cap cb c → queue_inv c ∧ mutex c = false.
Proof.
  induction 1 as [|c w k v c' w' _ [Hq Hm] Hop|c w k r c' w' _ [Hq Hm] Hop
                  |c w k r c' w' _ [Hq Hm] Hop|c w r c' w' _ [Hq Hm] Hop].
  - split; [apply cache_inv_NewCache|done].
  - destruct (go_Set_keeps_queue_inv c w k v Hq Hm)
      as (c1 & w1 & Hs & Hq1 & (_ & _ & Hm1) & _).
    rewrite Hs in Hop. injection Hop as <- _. split; [done|congruence].
  - unfold lru_go.Cache_Get in Hop.
    destruct (lookup c !! k) as [e|]; injection Hop as _ <- _; [|done].
    split; [by apply queue_inv_move|done].
  - unfold lru_go.Cache_Remove in Hop.
    destruct (lookup c !! k) as [e|] eqn:Hk; [|by injection Hop as _ <- _].
    destruct (qi_index _ Hq _ _ Hk) as [He [v Hv]].
    change (Value (Remove e (queue c)) e) with (Value (queue c) e) in Hop.
    rewrite Hv in Hop. simpl in Hop. injection Hop as _ <- _.
    split; [|done]. apply (queue_inv_unlinked c e k); [done|by eexists].
  - rewrite go_RemoveOldest_eq in Hop.
    destruct (decide (elements (queue c) = [])) as [He|He].
    + rewrite removeOldest_empty in Hop by done. by injection Hop as _ <- _.
    + destruct (back_of_nonempty _ He) as (l & tail & Hl).
      destruct (entry_at_back _ _ _ Hq Hl) as (en & Hv & Hh).
      rewrite (removeOldest_back c w l tail en Hl Hv) in Hop.
      injection Hop as _ <- _. split; [by apply queue_inv_unlinked|done].
Qed.

End Reachable.


(** C1, refuted by the code: after [Set("a", "foo")], [Get("a")] returns
    [item.Value], the pointer to the entry [{a, foo}], with [true], and not
    the stored value ["foo"]; in both revisions. *)
Theorem Get_returns_entry_not_value :
  ('(_, c, w) ← part_000.Cache_Set "a" "foo" (NewCache 1 record_evictions) [];
   '(r, ok, _, _) ← part_000.Cache_Get "a" c w;
   Ret (r, ok)) = Ret (OfEntry (mk_entry "a" "foo"), true)
  ∧ ('(_, c, w) ← lru_go.Cache_Set "a" "foo" (NewCache 1 record_evictions) [];
     '(r, ok, _, _) ← lru_go.Cache_Get "a" c w;
     Ret (r, ok)) = Ret (OfEntry (mk_entry "a" "foo"), true)
  ∧ OfEntry (mk_entry "a" "foo") ≠ (OfValue "foo" : any string string).
Proof. split_and!; [by vm_compute..|done]. Qed.

(** C3, refuted by [src/lru/lru.go]: on a cache of capacity 2 that holds
    key ["a"] and satisfies the correspondence, [Set("a", "bar")] returns
    with two entries for ["a"] in the list, so the correspondence is lost. *)
Theorem go_Set_breaks_correspondence :
  let c1 := pushed (NewCache 2 record_evictions) "a" "foo" in
  lru_go.Cache_Set "a" "foo" (NewCache 2 record_evictions) [] = Ret (tt, c1, [])
  ∧ cache_inv c1
  ∧ ∃ c2, lru_go.Cache_Set "a" "bar" c1 [] = Ret (tt, c2, [])
          ∧ keys (queue c2) = ["a"; "a"]
          ∧ ¬ cache_inv c2.
Proof.
  intros c1. split_and!.
  - by vm_compute.
  - apply cache_inv_pushed; [apply cache_inv_NewCache|done].
  - eexists. split; [by vm_compute|]. split; [by vm_compute|].
    intros Hinv%NoDup_keys. revert Hinv.
    match goal with |- NoDup ?l → _ =>
      replace l with ["a"; "a"] by (by vm_compute) end.
    intros [Hn _]%NoDup_cons. apply Hn. by left.
Qed.

(** C4, refuted by [src/lru/lru.go]: on a cache of capacity 1,
    [Set("a", "foo")] then [Set("a", "bar")] invokes the eviction callback
    once, with [("a", "bar")], and leaves an entry for ["a"] in the list that
    the index no longer has: [Get("a")] then finds nothing. *)
Theorem go_Set_twice_evicts :
  ('(_, c, w) ← lru_go.Cache_Set "a" "foo" (NewCache 1 record_evictions) [];
   '(_, c, w) ← lru_go.Cache_Set "a" "bar" c w;
   '(r, ok, c, w) ← lru_go.Cache_Get "a" c w;
   Ret (r, ok, w, keys (queue c), lookup c !! "a"))
  = Ret (Nil, false, [("a", "bar")], ["a"], None).
Proof. by vm_compute. Qed.

(** C7: on a cache of capacity 2, [Set(a)], [Set(b)], [Get(a)], [Set(c)]
    evicts exactly the entry of [b]; [c] and [a] stay, in that order. *)
Theorem Get_protects_from_eviction :
  ('(_, c, w) ← part_000.Cache_Set "a" "foo" (NewCache 2 record_evictions) [];
   '(_, c, w) ← part_000.Cache_Set "b" "foo" c w;
   '(_, ok, c, w) ← part_000.Cache_Get "a" c w;
   '(_, c, w') ← part_000.Cache_Set "c" "foo" c w;
   Ret (ok, w, w', keys (queue c), dom (lookup c)))
  = Ret (true, [], [("b", "foo")], ["c"; "a"], {["a"; "c"]}).
Proof. by vm_compute. Qed.

(** ** The claims that hold for every cache *)
Section Claims.
Context {K : Type} `{Countable K} {V W : Type}.
Implicit Types (c : Cache K V W) (q : List K V) (e : Element) (k : K) (v : V) (w : W).

(** C2: on a cache made by [NewCache] with a positive capacity, every
    sequence of [Set] calls returns, and after each call (after every
    prefix [take n kvs] of the sequence) the list holds at most [cap]
    entries and the index at most [cap] keys; the capacity field is still
    [cap].  For the [Set] of both revisions. *)
Theorem Set_sequence_within_capacity
    (cap : Z) (cb : EvictionCallback K V W) (kvs : list (K * V)) (n : nat) w :
  (0 < cap)%Z →
  (∃ c' w', Set_all part_000.Cache_Set (take n kvs) (NewCache cap cb) w = Ret (c', w')
            ∧ capacity c' = cap
            ∧ (Len (queue c') ≤ cap)%Z
            ∧ (Z.of_nat (size (lookup c')) ≤ cap)%Z)
  ∧ (∃ c' w', Set_all lru_go.Cache_Set (take n kvs) (NewCache cap cb) w = Ret (c', w')
              ∧ capacity c' = cap
              ∧ (Len (queue c') ≤ cap)%Z
              ∧ (Z.of_nat (size (lookup c')) ≤ cap)%Z).
Proof.
  intros Hcap.
  assert (Hnew : within_capacity (NewCache cap cb)).
  { unfold within_capacity, Len. simpl. lia. }
  pose proof (cache_inv_NewCache cap cb) as Hinv. split.
  - destruct (Set_all_within_capacity (take n kvs) (NewCache cap cb) w)
      as (c' & w' & Hr & Hinv' & (Hcp & _) & Hc'); [done..|].
    exists c', w'. unfold within_capacity in Hc'. simpl in Hcp.
    split_and!; [done|done|lia|].
    pose proof (index_size_le_Len c' (ci_queue _ Hinv')). lia.
  - destruct (go_Set_all_within_capacity (take n kvs) (NewCache cap cb) w)
      as (c' & w' & Hr & Hinv' & (Hcp & _) & Hc'); [apply Hinv|done..|].
    exists c', w'. unfold within_capacity in Hc'. simpl in Hcp.
    split_and!; [done|done|lia|].
    pose proof (index_size_le_Len c' Hinv'). lia.
Qed.


(** C6: on every cache in which the linked elements are distinct and hold
    entries and the index sends every key to a linked element that holds an
    entry for it (what both revisions keep on every cache they build:
    [reachable_inv], [go_reachable_inv]), [RemoveOldest] on an empty list returns [nil] with [false]; otherwise it
    takes the element at the back of the list out of the list and its key
    out of the index, applies the callback to its key and value, and
    returns its value with [true].  [RemoveOldest] of
    [src/unnamed/part_000] does so when the mutex is free; [RemoveOldest] of
    [src/lru/lru.go] does not look at the mutex.  In particular after [Set]
    of [a], [b], [c] on a cache of capacity 3, three calls return the values
    of [a], [b], [c] in this order (the test stores each key as its own
    value). *)
Theorem RemoveOldest_evicts_least_recent c w :
  queue_inv c →
  (elements (queue c) = [] →
     (mutex c = false →
      part_000.Cache_RemoveOldest c w = Ret (Nil, false, c, w))
     ∧ lru_go.Cache_RemoveOldest c w = Ret (Nil, false, c, w))
  ∧ (∀ l tail, elements (queue c) = l ++ [tail] →
       ∃ k v c', Value (queue c) tail = OfEntry (mk_entry k v)
         ∧ (mutex c = false →
            part_000.Cache_RemoveOldest c w =
              Ret (OfValue v, true, c', onEviction c k v w))
         ∧ lru_go.Cache_RemoveOldest c w =
             Ret (OfValue v, true, c', onEviction c k v w)
         ∧ elements (queue c') = l
         ∧ lookup c' !! k = None
         ∧ (∀ k', k' ≠ k → lookup c' !! k' = lookup c !! k'))
  ∧ ('(_, c, w) ← part_000.Cache_Set "a" "a" (NewCache 3 record_evictions) [];
     '(_, c, w) ← part_000.Cache_Set "b" "b" c w;
     '(_, c, w) ← part_000.Cache_Set "c" "c" c w;
     '(r1, ok1, c, w) ← part_000.Cache_RemoveOldest c w;
     '(r2, ok2, c, w) ← part_000.Cache_RemoveOldest c w;
     '(r3, ok3, c, w) ← part_000.Cache_RemoveOldest c w;
     Ret (r1, ok1, r2, ok2, r3, ok3, w))
    = Ret (OfValue "a", true, OfValue "b", true, OfValue "c", true,
           [("a", "a"); ("b", "b"); ("c", "c")])
  ∧ ('(_, c, w) ← lru_go.Cache_Set "a" "a" (NewCache 3 record_evictions) [];
     '(_, c, w) ← lru_go.Cache_Set "b" "b" c w;
     '(_, c, w) ← lru_go.Cache_Set "c" "c" c w;
     '(r1, ok1, c, w) ← lru_go.Cache_RemoveOldest c w;
     '(r2, ok2, c, w) ← lru_go.Cache_RemoveOldest c w;
     '(r3, ok3, c, w) ← lru_go.Cache_RemoveOldest c w;
     Ret (r1, ok1, r2, ok2, r3, ok3, w))
    = Ret (OfValue "a", true, OfValue "b", true, OfValue "c", true,
           [("a", "a"); ("b", "b"); ("c", "c")]).
Proof.
  intros Hq. split_and!; [| |by vm_compute..].
  - intros He. split; [intros Hm; by apply RemoveOldest_empty|].
    rewrite go_RemoveOldest_eq. by apply removeOldest_empty.
  - intros l tail Hl.
    destruct (entry_at_back _ _ _ Hq Hl) as ([k v] & Hv & _).
    exists k, v, (unlinked c tail k). split_and!; try done.
    + intros Hm. by rewrite (RemoveOldest_back c w l tail _ Hm Hl Hv).
    + rewrite go_RemoveOldest_eq.
      by rewrite (removeOldest_back c w l tail _ Hl Hv).
    + simpl. rewrite Hl. apply filter_ne_snoc.
      pose proof (qi_nodup _ Hq) as Hnd. rewrite Hl in Hnd.
      apply NoDup_app in Hnd as (_ & Hd & _). intros Hin.
      apply (Hd _ Hin). by left.
    + simpl. apply lookup_delete_eq.
    + intros k' Hk'. simpl. by apply lookup_delete_ne.
Qed.

End Claims.

Section MoreClaims.
Context {K : Type} `{Countable K} {V W : Type}.
Implicit Types (c : Cache K V W) (q : List K V) (e : Element) (k : K) (v : V) (w : W).

Lemma omap_lookup_total {A B} (f : A → option B) (l : list A) : ∀ i,
  (∀ x, x ∈ l → is_Some (f x)) → omap f l !! i = l !! i ≫= f.
Proof.
  induction l as [|a l IH]; intros i Hf; [done|].
  cbn [omap list_omap]. destruct (Hf a) as [b Hb]; [by left|]. rewrite Hb.
  destruct i as [|i]; simpl; [done|]. apply IH. intros x Hx. apply Hf. by right.
Qed.

(** The [i]-th key of the list is the key of the entry of the [i]-th element
    from the front. *)
Lemma keys_lookup c i e :
  queue_inv c → elements (queue c) !! i = Some e →
  ∃ en, Value (queue c) e = OfEntry en ∧ keys (queue c) !! i = Some (key en).
Proof.
  intros Hq Hi. destruct (qi_entry _ Hq e) as [en Hen].
  { by eapply list_elem_of_lookup_2. }
  exists en. split.
  - destruct (Value (queue c) e); try done. simpl in Hen. congruence.
  - unfold keys, entries. rewrite list_lookup_fmap, omap_lookup_total.
    + rewrite Hi. simpl. by rewrite Hen.
    + apply Hq.
Qed.

(** C8: on a cache that satisfies the correspondence and whose mutex is
    free, [ListKeys] returns the keys of the entries of the list from front
    (most recently used) to back and leaves the cache as it was; these are
    the keys of the index, each once, and the key in position [i] is the key
    of the [i]-th element from the front.  In particular after [Set] of [a],
    [b], [c] on a cache of capacity 3 it returns [c, b, a] ([TestListKeys]). *)
Theorem ListKeys_most_recent_first c w :
  cache_inv c → mutex c = false →
  part_000.Cache_ListKeys c w = Ret (OfKey <$> keys (queue c), c, w)
  ∧ (∀ k, k ∈ keys (queue c) ↔ is_Some (lookup c !! k))
  ∧ NoDup (keys (queue c))
  ∧ (∀ i e, elements (queue c) !! i = Some e →
       ∃ en, Value (queue c) e = OfEntry en
             ∧ keys (queue c) !! i = Some (key en))
  ∧ ('(_, c, w) ← part_000.Cache_Set "a" 1%Z
                    (NewCache 3 (part_000.Noop : EvictionCallback string Z unit)) tt;
     '(_, c, w) ← part_000.Cache_Set "b" 2%Z c w;
     '(_, c, w) ← part_000.Cache_Set "c" 3%Z c w;
     '(ks, _, _) ← part_000.Cache_ListKeys c w;
     Ret ks) = Ret [OfKey "c"; OfKey "b"; OfKey "a"].
Proof.
  intros Hinv Hm. split_and!.
  - apply ListKeys_returns; [apply Hinv|done].
  - intros k. by apply keys_index.
  - by apply NoDup_keys.
  - intros i e. apply keys_lookup, Hinv.
  - by vm_compute.
Qed.

Lemma reachable_zero_empty (cb : EvictionCallback K V W) c :
  reachable 0 cb c → elements (queue c) = [] ∧ lookup c = ∅.
Proof.
  intros (Hinv & _ & Hcp & _ & Hcap)%reachable_inv.
  assert (He : elements (queue c) = []).
  { specialize (Hcap ltac:(lia)). unfold within_capacity, Len in Hcap.
    rewrite Hcp in Hcap. apply length_zero_iff_nil. lia. }
  split; [done|]. apply map_empty. intros k.
  destruct (lookup c !! k) as [e|] eqn:Hk; [|done].
  destruct (qi_index _ (ci_queue _ Hinv) _ _ Hk) as [Hin _].
  rewrite He in Hin. by apply elem_of_nil in Hin.
Qed.

(** C10: on a cache made with capacity 0 (by [NewCache] and any calls of the
    exported methods after it), [Set(k, v)] of a key that is not present
    pushes a new element for [(k, v)], which is then the back of the list,
    evicts this same element, applies the callback to exactly [(k, v)], and
    leaves the list and the index empty. *)
Theorem Set_at_capacity_zero (cb : EvictionCallback K V W) c w k v :
  reachable 0 cb c → lookup c !! k = None →
  ∃ item,
    fst (PushFront (OfEntry (mk_entry k v)) (queue c)) = item
    ∧ Back (queue (pushed c k v)) = Some item
    ∧ Value (queue (pushed c k v)) item = OfEntry (mk_entry k v)
    ∧ part_000.Cache_Set k v c w =
        Ret (tt, unlinked (pushed c k v) item k, cb k v w)
    ∧ elements (queue (unlinked (pushed c k v) item k)) = []
    ∧ lookup (unlinked (pushed c k v) item k) = ∅.
Proof.
  intros Hr Hk. destruct (reachable_zero_empty cb c Hr) as [He Hl].
  apply reachable_inv in Hr as (Hinv & Hm & Hcp & Hcb & _).
  exists (next_free (queue c)).
  assert (Hel : elements (queue (pushed c k v)) = [] ++ [next_free (queue c)]).
  { rewrite elements_pushed, He. done. }
  split_and!.
  - done.
  - unfold Back. by rewrite Hel.
  - apply Value_pushed_new.
  - rewrite <- Hcb.
    apply (Set_absent_evict c w k v [] (next_free (queue c)) (mk_entry k v));
      [done|done| |done|apply Value_pushed_new].
    unfold Len. rewrite He, Hcp. simpl. lia.
  - simpl. rewrite He. rewrite filter_cons_False by (intros Hc; by apply Hc).
    done.
  - simpl. rewrite Hl. by rewrite delete_insert_eq, delete_empty.
Qed.

End MoreClaims.

(** C9, refuted by [src/lru/lru.go]: take the cache that holds [b] and [a]
    while its mutex is held, as it is while another call is inside [Set].
    [Set] of both revisions and [Get] of [src/unnamed/part_000] wait for the
    mutex; [Get], [Remove] and [RemoveOldest] of [src/lru/lru.go] do not take
    it: they return, having reordered or unlinked elements of the list and
    deleted keys of the index, and [RemoveOldest] runs the callback. *)
Theorem go_methods_run_while_mutex_held :
  let c := set_mutex true
             (pushed (pushed (NewCache 2 record_evictions) "a" "foo") "b" "bar") in
  mutex c = true
  ∧ keys (queue c) = ["b"; "a"]
  ∧ part_000.Cache_Set "c" "baz" c [] = Blocked
  ∧ lru_go.Cache_Set "c" "baz" c [] = Blocked
  ∧ part_000.Cache_Get "a" c [] = Blocked
  ∧ part_000.Cache_Remove "a" c [] = Blocked
  ∧ part_000.Cache_RemoveOldest c [] = Blocked
  ∧ ('(_, ok, c', w) ← lru_go.Cache_Get "a" c [];
     Ret (ok, keys (queue c'), mutex c')) = Ret (true, ["a"; "b"], true)
  ∧ ('(_, ok, c', w) ← lru_go.Cache_Remove "a" c [];
     Ret (ok, keys (queue c'), dom (lookup c'), mutex c'))
    = Ret (true, ["b"], {["b"]}, true)
  ∧ ('(_, ok, c', w) ← lru_go.Cache_RemoveOldest c [];
     Ret (ok, keys (queue c'), dom (lookup c'), w, mutex c'))
    = Ret (true, ["b"], {["b"]}, [("a", "foo")], true).
Proof. intros c. split_and!; by vm_compute. Qed.

(** ** What [src/unnamed/part_000] does where [src/lru/lru.go] fails *)
Section Part000Repairs.
Context {K : Type} `{Countable K} {V W : Type}.
Implicit Types (c : Cache K V W) (q : List K V) (e : Element) (k : K) (v : V) (w : W).

(** [cache_inv] in the words of the specification: a key is in the index
    exactly when one element of the list, and only one, holds an entry for
    it; the index has that element for the key; no key occurs twice in the
    list. *)
Lemma cache_inv_correspondence c :
  cache_inv c →
  (∀ k, is_Some (lookup c !! k) ↔
        ∃ e, (e ∈ elements (queue c) ∧ holds (queue c) e k)
             ∧ ∀ e', e' ∈ elements (queue c) ∧ holds (queue c) e' k → e' = e)
  ∧ (∀ k e, lookup c !! k = Some e →
        e ∈ elements (queue c) ∧ holds (queue c) e k)
  ∧ NoDup (keys (queue c)).
Proof.
  intros Hinv. destruct Hinv as [Hq Hl]. split_and!.
  - intros k. split.
    + intros [e Hk]. exists e. split; [by apply (qi_index _ Hq)|].
      intros e' [He' Hh']. pose proof (Hl _ _ He' Hh'). congruence.
    + intros (e & [He Hh] & _). exists e. by apply Hl.
  - apply (qi_index _ Hq).
  - by apply NoDup_keys.
Qed.

(** X2: every exported method of [src/unnamed/part_000] returns on a cache
    that satisfies the correspondence and whose mutex is free, and the cache
    satisfies it afterwards, with the mutex free again. *)
Lemma part_000_keeps_correspondence c w :
  cache_inv c → mutex c = false →
  (∀ k v, ∃ c' w', part_000.Cache_Set k v c w = Ret (tt, c', w')
                   ∧ cache_inv c' ∧ mutex c' = false)
  ∧ (∀ k, ∃ r c', part_000.Cache_Get k c w = Ret (r, c', w)
                  ∧ cache_inv c' ∧ mutex c' = false)
  ∧ (∀ k, ∃ r c', part_000.Cache_Remove k c w = Ret (r, c', w)
                  ∧ cache_inv c' ∧ mutex c' = false)
  ∧ (∃ r c' w', part_000.Cache_RemoveOldest c w = Ret (r, c', w')
                ∧ cache_inv c' ∧ mutex c' = false)
  ∧ (∃ r, part_000.Cache_ListKeys c w = Ret (r, c, w)).
Proof.
  intros Hinv Hm. split_and!.
  - intros k v. destruct (Set_keeps_inv c w k v Hinv Hm)
      as (c' & w' & ? & ? & (_ & _ & ?) & _).
    exists c', w'. split_and!; [done..|congruence].
  - intros k. destruct (Get_keeps_inv c w k Hinv Hm)
      as (r & c' & ? & ? & (_ & _ & ?) & _).
    exists r, c'. split_and!; [done..|congruence].
  - intros k. destruct (Remove_keeps_inv c w k Hinv Hm)
      as (r & c' & ? & ? & (_ & _ & ?) & _).
    exists r, c'. split_and!; [done..|congruence].
  - destruct (RemoveOldest_keeps_inv c w Hinv Hm)
      as (r & c' & w' & ? & ? & (_ & _ & ?) & _).
    exists r, c', w'. split_and!; [done..|congruence].
  - eexists. apply ListKeys_returns; [apply Hinv|done].
Qed.

(** After [Set(k, v)] on a cache of capacity at least 1 the key is in the
    index. *)
Lemma Set_makes_present c w k v c' w' :
  cache_inv c → mutex c = false → (1 ≤ capacity c)%Z →
  part_000.Cache_Set k v c w = Ret (tt, c', w') →
  is_Some (lookup c' !! k).
Proof.
  intros Hinv Hm Hcap Hs. destruct (lookup c !! k) as [e|] eqn:Hk.
  - rewrite (Set_present c w k v e Hm Hk) in Hs. injection Hs as <- _.
    simpl. by rewrite Hk.
  - destruct (decide (Len (queue c) + 1 ≤ capacity c)%Z) as [Hc|Hc].
    + rewrite (Set_absent_room c w k v Hm Hk Hc) in Hs. injection Hs as <- _.
      simpl. rewrite lookup_insert_eq. by eexists.
    + pose proof (cache_inv_pushed c k v Hinv Hk) as Hinv'.
      destruct (back_of_nonempty (elements (queue c))) as (l & tail & He).
      { intros He. unfold Len in Hc. rewrite He in Hc. simpl in Hc. lia. }
      assert (Hel : elements (queue (pushed c k v))
                    = (next_free (queue c) :: l) ++ [tail]).
      { rewrite elements_pushed, He. done. }
      destruct (entry_at_back _ _ _ (ci_queue _ Hinv') Hel) as (en & Hv & Hh).
      rewrite (Set_absent_evict c w k v _ tail en Hm Hk ltac:(lia) Hel Hv) in Hs.
      injection Hs as <- _. simpl.
      assert (Hne : key en ≠ k).
      { intros Hkey. rewrite Hkey in Hh.
        assert (Hin : tail ∈ elements (queue (pushed c k v))).
        { rewrite Hel. apply elem_of_app. right. by left. }
        pose proof (ci_listed _ Hinv' _ _ Hin Hh) as Hlk. simpl in Hlk.
        rewrite lookup_insert_eq in Hlk. injection Hlk as Hlk.
        assert (Htl : tail ∈ elements (queue c)).
        { rewrite He. apply elem_of_app. right. by left. }
        apply (qi_fresh _ (ci_queue _ Hinv)) in Htl. simpl in Hlk. lia. }
      rewrite lookup_delete_ne, lookup_insert_eq by done. by eexists.
Qed.

(** X1: update in place in [src/unnamed/part_000]: on a cache of capacity
    at least 1 that satisfies the correspondence, [Set(k, v1)] then
    [Set(k, v2)] leaves the entry [(k, v2)] in the element at the front,
    which is the element the index has for [k] and, by the correspondence,
    the only one that holds [k]; the second call leaves the state of the
    callback as it was. *)
Lemma Set_twice_in_place c w k v1 v2 :
  cache_inv c → mutex c = false → (1 ≤ capacity c)%Z →
  ∃ c1 w1 c2 e,
    part_000.Cache_Set k v1 c w = Ret (tt, c1, w1)
    ∧ part_000.Cache_Set k v2 c1 w1 = Ret (tt, c2, w1)
    ∧ Front (queue c2) = Some e
    ∧ Value (queue c2) e = OfEntry (mk_entry k v2)
    ∧ lookup c2 !! k = Some e
    ∧ cache_inv c2.
Proof.
  intros Hinv Hm Hcap.
  destruct (Set_keeps_inv c w k v1 Hinv Hm)
    as (c1 & w1 & Hs1 & Hinv1 & (_ & _ & Hm1) & _).
  rewrite Hm in Hm1.
  destruct (Set_makes_present c w k v1 c1 w1 Hinv Hm Hcap Hs1) as [e Hk1].
  destruct (qi_index _ (ci_queue _ Hinv1) _ _ Hk1) as [He1 _].
  eexists c1, w1, _, e. split; [done|].
  split; [by apply Set_present|]. split_and!.
  - simpl. by apply head_MoveToFront.
  - simpl. rewrite Value_SetValue. by rewrite decide_True.
  - done.
  - apply (cache_inv_update (set_queue (MoveToFront e (queue c1)) c1)); [|done].
    by apply cache_inv_move.
Qed.

End Part000Repairs.

(** ** The methods of [src/unnamed/part_000] on the entries of the list

    [entries (queue c)] lists the stored entries from most to least
    recently used; each method acts on it as on a plain list. *)
Section Entries.
Context {K : Type} `{Countable K} {V W : Type}.
Implicit Types (c : Cache K V W) (q : List K V) (e : Element) (k : K) (v : V) (w : W).

Lemma omap_Value_ext q q' (l : list Element) :
  (∀ e, e ∈ l → Value q' e = Value q e) →
  omap (λ e, as_entry (Value q' e)) l = omap (λ e, as_entry (Value q e)) l.
Proof.
  induction l as [|a l IH]; intros Hv; [done|]. cbn [omap list_omap].
  rewrite (Hv a) by (by left). rewrite IH; [done|].
  intros e He. apply Hv. by right.
Qed.

Lemma entries_pushed c k v :
  queue_inv c → entries (queue (pushed c k v)) = mk_entry k v :: entries (queue c).
Proof.
  intros Hq. unfold entries. rewrite elements_pushed. cbn [omap list_omap].
  rewrite Value_pushed_new. simpl. f_equal. apply omap_Value_ext.
  intros e He. apply Value_pushed_old. apply (qi_fresh _ Hq) in He. lia.
Qed.

(** Unlinking the element of [k] drops the entries with key [k]. *)
Lemma omap_filter_key c k e (l : list Element) :
  cache_inv c → lookup c !! k = Some e →
  (∀ x, x ∈ l → x ∈ elements (queue c)) →
  omap (λ x, as_entry (Value (queue c) x)) (filter (λ x, x ≠ e) l)
  = filter (λ en, key en ≠ k) (omap (λ x, as_entry (Value (queue c) x)) l).
Proof.
  intros [Hq Hl] Hk. destruct (qi_index _ Hq _ _ Hk) as [He Hh].
  induction l as [|a l IH]; intros Hsub; [done|].
  assert (Ha : a ∈ elements (queue c)) by (apply Hsub; by left).
  assert (IH' := IH (λ x Hx, Hsub x (list_elem_of_further _ _ _ Hx))).
  destruct (qi_entry _ Hq a Ha) as [en Hen].
  destruct (decide (a = e)) as [->|Hne].
  - rewrite filter_cons_False by (intros Hc; by apply Hc).
    cbn [omap list_omap]. rewrite Hen.
    rewrite filter_cons_False; [done|]. intros Hc. apply Hc.
    apply holds_as_entry in Hh as (en' & Hen' & <-). congruence.
  - rewrite filter_cons_True by done. cbn [omap list_omap]. rewrite Hen.
    rewrite filter_cons_True; [by rewrite IH'|].
    intros Hkey. apply Hne.
    assert (Hha : holds (queue c) a k) by (apply holds_as_entry; eauto).
    pose proof (Hl _ _ Ha Hha). congruence.
Qed.

Lemma entries_Remove c k e :
  cache_inv c → lookup c !! k = Some e →
  entries (Remove e (queue c)) = filter (λ en, key en ≠ k) (entries (queue c)).
Proof. intros Hinv Hk. by apply (omap_filter_key c k e). Qed.

Lemma entries_refresh c k v e :
  cache_inv c → lookup c !! k = Some e →
  entries (SetValue e (OfEntry (mk_entry k v)) (MoveToFront e (queue c)))
  = mk_entry k v :: filter (λ en, key en ≠ k) (entries (queue c)).
Proof.
  intros Hinv Hk.
  destruct (qi_index _ (ci_queue _ Hinv) _ _ Hk) as [He _].
  unfold entries, MoveToFront. rewrite bool_decide_true by done.
  cbn [elements SetValue omap list_omap]. rewrite Value_SetValue.
  rewrite decide_True by done. simpl. f_equal.
  rewrite <- (omap_filter_key c k e) by done.
  apply omap_Value_ext. intros x [Hne _]%list_elem_of_filter.
  rewrite Value_SetValue. by rewrite decide_False.
Qed.

Lemma entries_MoveToFront c k e en :
  cache_inv c → lookup c !! k = Some e → Value (queue c) e = OfEntry en →
  entries (MoveToFront e (queue c))
  = en :: filter (λ en', key en' ≠ k) (entries (queue c)).
Proof.
  intros Hinv Hk Hv.
  destruct (qi_index _ (ci_queue _ Hinv) _ _ Hk) as [He _].
  unfold entries, MoveToFront. rewrite bool_decide_true by done.
  cbn [elements omap list_omap].
  change (Value {| elements := _; values := values (queue c);
                   next_free := _ |}) with (Value (queue c)).
  rewrite Hv. simpl. f_equal. by apply (omap_filter_key c k e).
Qed.

Lemma entries_snoc q l tail en :
  elements q = l ++ [tail] → Value q tail = OfEntry en →
  entries q = omap (λ e, as_entry (Value q e)) l ++ [en].
Proof.
  intros He Hv. unfold entries. rewrite He, omap_app. cbn [omap list_omap].
  by rewrite Hv.
Qed.

Lemma entries_unlinked_back c l tail k :
  NoDup (elements (queue c)) → elements (queue c) = l ++ [tail] →
  entries (queue (unlinked c tail k))
  = omap (λ e, as_entry (Value (queue c) e)) l.
Proof.
  intros Hnd He. unfold entries. simpl. rewrite He, filter_ne_snoc; [done|].
  rewrite He in Hnd. apply NoDup_app in Hnd as (_ & Hd & _).
  intros Hin. apply (Hd _ Hin). by left.
Qed.

Lemma entry_of_index c k e v :
  queue_inv c → lookup c !! k = Some e →
  Value (queue c) e = OfEntry (mk_entry k v) →
  mk_entry k v ∈ entries (queue c).
Proof.
  intros Hq Hk Hv. destruct (qi_index _ Hq _ _ Hk) as [He _].
  unfold entries. apply list_elem_of_omap. exists e. by rewrite Hv.
Qed.

(** X5: [Set(k, v)] on the entries.  A key that is present: its entry
    becomes [(k, v)] and moves to the front, the others keep their order, and
    the callback does not run.  A new key with room: [(k, v)] is put in front,
    no callback.  A new key without room: [(k, v)] is put in front, the last
    entry of the list so obtained is dropped, and the callback runs once, on
    that entry. *)
Theorem Set_acts_on_entries c w k v :
  cache_inv c → mutex c = false →
  ∃ c' w',
    part_000.Cache_Set k v c w = Ret (tt, c', w')
    ∧ match lookup c !! k with
      | Some _ =>
          entries (queue c')
          = mk_entry k v :: filter (λ en, key en ≠ k) (entries (queue c))
          ∧ w' = w
      | None =>
          if decide (Len (queue c) + 1 ≤ capacity c)%Z
          then entries (queue c') = mk_entry k v :: entries (queue c) ∧ w' = w
          else ∃ l en,
                 mk_entry k v :: entries (queue c) = l ++ [en]
                 ∧ entries (queue c') = l
                 ∧ w' = onEviction c (key en) (value en) w
      end.
Proof.
  intros Hinv Hm. destruct (lookup c !! k) as [e|] eqn:Hk.
  - eexists _, _. split; [by apply Set_present|].
    split; [|done]. by apply entries_refresh.
  - destruct (decide (Len (queue c) + 1 ≤ capacity c)%Z) as [Hc|Hc].
    + eexists _, _. split; [by apply Set_absent_room|].
      split; [|done]. apply entries_pushed, Hinv.
    + pose proof (queue_inv_pushed c k v (ci_queue _ Hinv)) as Hq'.
      destruct (back_of_nonempty (elements (queue (pushed c k v))))
        as (l & tail & He); [by rewrite elements_pushed|].
      destruct (entry_at_back _ _ _ Hq' He) as (en & Hv & _).
      eexists _, _. split; [eapply Set_absent_evict; eauto; lia|].
      exists (omap (λ e, as_entry (Value (queue (pushed c k v)) e)) l), en.
      split_and!.
      * rewrite <- entries_pushed by apply Hinv.
        apply (entries_snoc _ l tail en He Hv).
      * apply (entries_unlinked_back _ l tail); [apply Hq'|done].
      * done.
Qed.

(** X6: [Get(k)] on the entries.  A key that is present: the entry [(k, v)]
    of the list is returned (as the pointer to it) with [true] and moves to
    the front, the others keep their order, the index is as it was, and the
    callback does not run.  A key that is absent: [nil], [false], no change,
    and no entry of the list has this key. *)
Theorem Get_acts_on_entries c w k :
  cache_inv c → mutex c = false →
  match lookup c !! k with
  | Some _ =>
      ∃ v c',
        part_000.Cache_Get k c w = Ret (OfEntry (mk_entry k v), true, c', w)
        ∧ mk_entry k v ∈ entries (queue c)
        ∧ entries (queue c')
          = mk_entry k v :: filter (λ en, key en ≠ k) (entries (queue c))
        ∧ lookup c' = lookup c
  | None =>
      part_000.Cache_Get k c w = Ret (Nil, false, c, w)
      ∧ k ∉ keys (queue c)
  end.
Proof.
  intros Hinv Hm. destruct (lookup c !! k) as [e|] eqn:Hk.
  - destruct (qi_index _ (ci_queue _ Hinv) _ _ Hk) as [He [v Hv]].
    exists v, (set_queue (MoveToFront e (queue c)) c). split_and!.
    + rewrite (Get_present c w k e Hm Hk). by rewrite Hv.
    + eapply entry_of_index; eauto. apply Hinv.
    + by apply entries_MoveToFront.
    + done.
  - split; [by apply Get_absent|].
    rewrite (keys_index _ _ Hinv), Hk. by intros [? ?].
Qed.

(** X7: [Remove(k)] on the entries.  A key that is present: the value of
    its entry is returned with [true], the entry is dropped, the others keep
    their order, the key is deleted from the index, and the callback does
    not run.  A key that is absent: [nil], [false], no change. *)
Theorem Remove_acts_on_entries c w k :
  cache_inv c → mutex c = false →
  match lookup c !! k with
  | Some _ =>
      ∃ v c',
        part_000.Cache_Remove k c w = Ret (OfValue v, true, c', w)
        ∧ mk_entry k v ∈ entries (queue c)
        ∧ entries (queue c') = filter (λ en, key en ≠ k) (entries (queue c))
        ∧ lookup c' = delete k (lookup c)
  | None => part_000.Cache_Remove k c w = Ret (Nil, false, c, w)
  end.
Proof.
  intros Hinv Hm. destruct (lookup c !! k) as [e|] eqn:Hk.
  - destruct (qi_index _ (ci_queue _ Hinv) _ _ Hk) as [He [v Hv]].
    exists v, (unlinked c e k). split_and!.
    + by rewrite (Remove_present c w k e _ Hm Hk Hv).
    + eapply entry_of_index; eauto. apply Hinv.
    + by apply entries_Remove.
    + done.
  - by apply Remove_absent.
Qed.

(** X8: [RemoveOldest] on the entries: on the empty list [nil], [false] and
    no change; otherwise the last entry is dropped, its value is returned
    with [true], its key is deleted from the index, and the callback runs
    once, on this entry. *)
Theorem RemoveOldest_acts_on_entries c w :
  cache_inv c → mutex c = false →
  (entries (queue c) = [] →
     part_000.Cache_RemoveOldest c w = Ret (Nil, false, c, w))
  ∧ (∀ l en, entries (queue c) = l ++ [en] →
       ∃ c', part_000.Cache_RemoveOldest c w =
               Ret (OfValue (value en), true, c',
                    onEviction c (key en) (value en) w)
             ∧ entries (queue c') = l
             ∧ lookup c' = delete (key en) (lookup c)).
Proof.
  intros Hinv Hm. pose proof (ci_queue _ Hinv) as Hq. split.
  - intros He. apply RemoveOldest_empty; [done|].
    apply length_zero_iff_nil.
    rewrite <- (length_keys c Hq). unfold keys. by rewrite He.
  - intros l en He.
    destruct (back_of_nonempty (elements (queue c))) as (l0 & tail & Hl).
    { intros Hnil. unfold entries in He. rewrite Hnil in He.
      by destruct l. }
    destruct (entry_at_back _ _ _ Hq Hl) as (en' & Hv & _).
    rewrite (entries_snoc _ _ _ _ Hl Hv) in He.
    apply app_inj_tail in He as [<- ->].
    exists (unlinked c tail (key en)). split_and!.
    + by apply (RemoveOldest_back c w l0 tail en).
    + apply entries_unlinked_back; [apply Hq|done].
    + done.
Qed.

End Entries.

(** ** How the methods of [src/unnamed/part_000] compose *)
Section Composition.
Context {K : Type} `{Countable K} {V W : Type}.
Implicit Types (c : Cache K V W) (q : List K V) (e : Element) (k : K) (v : V) (w : W).

Lemma MoveToFront_front q e :
  NoDup (elements q) → Front q = Some e → MoveToFront e q = q.
Proof.
  unfold Front, MoveToFront. destruct q as [els vals nf]. simpl.
  destruct els as [|a l]; [done|]. simpl. intros Hnd [= ->].
  apply NoDup_cons in Hnd as [Hn _].
  rewrite bool_decide_true by (by left).
  rewrite filter_cons_False by (intros Hc; by apply Hc).
  by rewrite filter_ne_notin.
Qed.

Lemma head_entries q e en :
  Front q = Some e → Value q e = OfEntry en → head (entries q) = Some en.
Proof.
  unfold Front, entries. destruct (elements q) as [|a l]; [done|].
  simpl. intros [= ->] Hv. cbn [omap list_omap]. by rewrite Hv.
Qed.

(** After [Set(k, v)] on a cache of capacity at least 1, the element the
    index has for [k] is at the front and holds [(k, v)]. *)
Lemma Set_puts_front c w k v :
  cache_inv c → mutex c = false → (1 ≤ capacity c)%Z →
  ∃ c1 w1 e,
    part_000.Cache_Set k v c w = Ret (tt, c1, w1)
    ∧ cache_inv c1 ∧ mutex c1 = false
    ∧ lookup c1 !! k = Some e
    ∧ Front (queue c1) = Some e
    ∧ Value (queue c1) e = OfEntry (mk_entry k v).
Proof.
  intros Hinv Hm Hcap.
  destruct (Set_keeps_inv c w k v Hinv Hm)
    as (c1 & w1 & Hs & Hinv1 & (_ & _ & Hm1) & _).
  rewrite Hm in Hm1. exists c1, w1.
  destruct (lookup c !! k) as [e|] eqn:Hk.
  - rewrite (Set_present c w k v e Hm Hk) in Hs. injection Hs as <- <-.
    destruct (qi_index _ (ci_queue _ Hinv) _ _ Hk) as [He _].
    exists e. split_and!; try done.
    + by apply Set_present.
    + simpl. by apply head_MoveToFront.
    + simpl. rewrite Value_SetValue. by rewrite decide_True.
  - exists (next_free (queue c)).
    destruct (decide (Len (queue c) + 1 ≤ capacity c)%Z) as [Hc|Hc].
    + rewrite (Set_absent_room c w k v Hm Hk Hc) in Hs. injection Hs as <- <-.
      split_and!; try done.
      * by apply Set_absent_room.
      * simpl. apply lookup_insert_eq.
      * apply Value_pushed_new.
    + pose proof (cache_inv_pushed c k v Hinv Hk) as Hinv'.
      destruct (back_of_nonempty (elements (queue c))) as (l & tail & He).
      { intros He. unfold Len in Hc. rewrite He in Hc. simpl in Hc. lia. }
      assert (Hel : elements (queue (pushed c k v))
                    = (next_free (queue c) :: l) ++ [tail]).
      { rewrite elements_pushed, He. done. }
      destruct (entry_at_back _ _ _ (ci_queue _ Hinv') Hel) as (en & Hv & Hh).
      assert (Htl : tail ∈ elements (queue c)).
      { rewrite He. apply elem_of_app. right. by left. }
      assert (Hlt : tail ≠ next_free (queue c)).
      { apply (qi_fresh _ (ci_queue _ Hinv)) in Htl. lia. }
      assert (Hne : key en ≠ k).
      { intros Hkey. rewrite Hkey in Hh.
        assert (Hin : tail ∈ elements (queue (pushed c k v))).
        { rewrite Hel. apply elem_of_app. right. by left. }
        pose proof (ci_listed _ Hinv' _ _ Hin Hh) as Hlk. simpl in Hlk.
        rewrite lookup_insert_eq in Hlk. by injection Hlk as Hlk. }
      pose proof (Set_absent_evict c w k v _ tail en Hm Hk ltac:(lia) Hel Hv)
        as Hs'.
      rewrite Hs' in Hs. injection Hs as <- <-.
      split_and!; try done.
      * simpl. by rewrite lookup_delete_ne, lookup_insert_eq.
      * unfold Front. simpl. by rewrite filter_cons_True by done.
      * apply Value_pushed_new.
Qed.

(** X9: round trip of [Set] and [Get]: on a cache of capacity at least 1,
    after [Set(k, v)] the entry [(k, v)] is the first of the list, and
    [Get(k)] returns it (as the pointer to it) with [true], runs no callback
    and leaves the cache as it is. *)
Theorem Set_then_Get c w k v :
  cache_inv c → mutex c = false → (1 ≤ capacity c)%Z →
  ∃ c1 w1,
    part_000.Cache_Set k v c w = Ret (tt, c1, w1)
    ∧ head (entries (queue c1)) = Some (mk_entry k v)
    ∧ part_000.Cache_Get k c1 w1 = Ret (OfEntry (mk_entry k v), true, c1, w1).
Proof.
  intros Hinv Hm Hcap.
  destruct (Set_puts_front c w k v Hinv Hm Hcap)
    as (c1 & w1 & e & Hs & Hinv1 & Hm1 & Hk1 & Hf & Hv).
  exists c1, w1. split_and!; [done|by eapply head_entries|].
  rewrite (Get_present c1 w1 k e Hm1 Hk1), Hv.
  rewrite MoveToFront_front; [|apply Hinv1|done]. by destruct c1.
Qed.

(** X10: round trip of [Set] and [Remove]: on a cache of capacity at least
    1, after [Set(k, v)], [Remove(k)] returns [v] with [true] and runs no
    callback; after it [Get(k)] and a second [Remove(k)] return [nil] with
    [false] and change nothing. *)
Theorem Set_then_Remove_then_Get c w k v :
  cache_inv c → mutex c = false → (1 ≤ capacity c)%Z →
  ∃ c1 w1 c2,
    part_000.Cache_Set k v c w = Ret (tt, c1, w1)
    ∧ part_000.Cache_Remove k c1 w1 = Ret (OfValue v, true, c2, w1)
    ∧ part_000.Cache_Get k c2 w1 = Ret (Nil, false, c2, w1)
    ∧ part_000.Cache_Remove k c2 w1 = Ret (Nil, false, c2, w1).
Proof.
  intros Hinv Hm Hcap.
  destruct (Set_puts_front c w k v Hinv Hm Hcap)
    as (c1 & w1 & e & Hs & Hinv1 & Hm1 & Hk1 & Hf & Hv).
  exists c1, w1, (unlinked c1 e k).
  assert (Hgone : lookup (unlinked c1 e k) !! k = None).
  { simpl. apply lookup_delete_eq. }
  split_and!; [done| | |].
  - by rewrite (Remove_present c1 w1 k e _ Hm1 Hk1 Hv).
  - by apply Get_absent.
  - by apply Remove_absent.
Qed.

(** X11: [Get(k)] twice: the second call returns what the first returned
    and leaves the cache as the first left it. *)
Theorem Get_twice c w k :
  cache_inv c → mutex c = false →
  ∃ r ok c1,
    part_000.Cache_Get k c w = Ret (r, ok, c1, w)
    ∧ part_000.Cache_Get k c1 w = Ret (r, ok, c1, w).
Proof.
  intros Hinv Hm. destruct (lookup c !! k) as [e|] eqn:Hk.
  - destruct (qi_index _ (ci_queue _ Hinv) _ _ Hk) as [He _].
    pose proof (cache_inv_move c e Hinv) as Hinv1.
    eexists _, _, _. split; [by apply Get_present|].
    rewrite (Get_present (set_queue (MoveToFront e (queue c)) c) w k e)
      by done.
    simpl. rewrite Value_MoveToFront.
    rewrite (MoveToFront_front (MoveToFront e (queue c)) e).
    + done.
    + apply NoDup_MoveToFront, Hinv.
    + by apply head_MoveToFront.
  - eexists _, _, _. split; by apply Get_absent.
Qed.

(** X12: with the callback of [Noop], [Set] and [RemoveOldest] (the two
    methods that evict) return and leave the state outside the cache as it
    was. *)
Theorem Noop_leaves_state c w :
  cache_inv c → mutex c = false → onEviction c = part_000.Noop →
  (∀ k v, ∃ c', part_000.Cache_Set k v c w = Ret (tt, c', w))
  ∧ (∃ r ok c', part_000.Cache_RemoveOldest c w = Ret (r, ok, c', w)).
Proof.
  intros Hinv Hm Hcb. split.
  - intros k v. destruct (lookup c !! k) as [e|] eqn:Hk.
    { eexists. by apply Set_present. }
    destruct (decide (Len (queue c) + 1 ≤ capacity c)%Z) as [Hc|Hc].
    { eexists. by apply Set_absent_room. }
    pose proof (queue_inv_pushed c k v (ci_queue _ Hinv)) as Hq'.
    destruct (back_of_nonempty (elements (queue (pushed c k v))))
      as (l & tail & He); [by rewrite elements_pushed|].
    destruct (entry_at_back _ _ _ Hq' He) as (en & Hv & _).
    eexists.
    rewrite (Set_absent_evict c w k v l tail en Hm Hk ltac:(lia) He Hv).
    by rewrite Hcb.
  - destruct (decide (elements (queue c) = [])) as [He|He].
    { eexists _, _, _. by apply RemoveOldest_empty. }
    destruct (back_of_nonempty _ He) as (l & tail & Hl).
    destruct (entry_at_back _ _ _ (ci_queue _ Hinv) Hl) as (en & Hv & _).
    eexists _, _, _.
    rewrite (RemoveOldest_back c w l tail en Hm Hl Hv). by rewrite Hcb.
Qed.

(** X13: under the correspondence the index has exactly as many keys as the
    list has elements. *)
Theorem index_size_eq_Len c :
  cache_inv c → Z.of_nat (size (lookup c)) = Len (queue c).
Proof.
  intros Hinv. pose proof (ci_queue _ Hinv) as Hq.
  apply Z.le_antisymm; [by apply index_size_le_Len|].
  unfold Len. apply inj_le. rewrite <- (length_keys c Hq).
  rewrite <- length_map_to_list, <- (length_fmap fst).
  apply submseteq_length, NoDup_submseteq; [by apply NoDup_keys|].
  intros k [e Hk]%(keys_index c k Hinv).
  apply list_elem_of_fmap. exists (k, e). split; [done|].
  by apply elem_of_map_to_list.
Qed.

(** X14: every cache that [NewCache(cap, cb)] and any calls of the exported
    methods of [src/unnamed/part_000] produce satisfies the correspondence,
    has its mutex free, still has capacity [cap] and callback [cb], and, for
    [cap] at least 0, holds at most [cap] entries. *)
Theorem reachable_cache_sound cap (cb : EvictionCallback K V W) c :
  reachable cap cb c →
  cache_inv c ∧ mutex c = false ∧ capacity c = cap ∧ onEviction c = cb
  ∧ ((0 ≤ cap)%Z → (Len (queue c) ≤ cap)%Z).
Proof.
  intros (Hinv & Hm & Hcp & Hcb & Hcap)%reachable_inv.
  split_and!; try done. intros Hpos. specialize (Hcap Hpos).
  unfold within_capacity in Hcap. lia.
Qed.

End Composition.

(** ** The methods of [src/lru/lru.go] in general *)
Section LruGoInGeneral.
Context {K : Type} `{Countable K} {V W : Type}.
Implicit Types (c : Cache K V W) (q : List K V) (e : Element) (k : K) (v : V) (w : W).

Lemma refreshed_present c k v e :
  lookup c !! k = Some e →
  refreshed c k v
  = set_queue (SetValue e (OfEntry (mk_entry k v)) (MoveToFront e (queue c))) c.
Proof. intros Hk. unfold refreshed. by rewrite Hk. Qed.

(** X15: on a cache of [src/lru/lru.go] in which the linked elements are
    distinct and hold entries and the index sends each key to a linked
    element that holds an entry for it, every method returns (none panics),
    this still holds afterwards, and a list within the capacity stays
    within it.  [Set] is called with the mutex free; the others do not look
    at it. *)
Theorem go_methods_keep_queue_inv c w :
  queue_inv c →
  (mutex c = false →
   ∀ k v, ∃ c' w', lru_go.Cache_Set k v c w = Ret (tt, c', w')
                   ∧ queue_inv c'
                   ∧ (within_capacity c → within_capacity c'))
  ∧ (∀ k, ∃ r ok c', lru_go.Cache_Get k c w = Ret (r, ok, c', w)
                     ∧ queue_inv c'
                     ∧ (within_capacity c → within_capacity c'))
  ∧ (∀ k, ∃ r ok c', lru_go.Cache_Remove k c w = Ret (r, ok, c', w)
                     ∧ queue_inv c'
                     ∧ (within_capacity c → within_capacity c'))
  ∧ (∃ r ok c' w', lru_go.Cache_RemoveOldest c w = Ret (r, ok, c', w')
                   ∧ queue_inv c'
                   ∧ (within_capacity c → within_capacity c')).
Proof.
  intros Hq. split_and!.
  - intros Hm k v.
    destruct (go_Set_keeps_queue_inv c w k v Hq Hm)
      as (c' & w' & Hs & Hq' & _ & Hc).
    by exists c', w'.
  - intros k. unfold lru_go.Cache_Get.
    destruct (lookup c !! k) as [e|] eqn:Hk.
    + eexists _, _, _. split; [done|]. split; [by apply queue_inv_move|].
      unfold within_capacity, Len. simpl.
      rewrite length_MoveToFront; [done|]. apply Hq.
    + by eexists _, _, _.
  - intros k. unfold lru_go.Cache_Remove.
    destruct (lookup c !! k) as [e|] eqn:Hk.
    + destruct (qi_index _ Hq _ _ Hk) as [He [v Hv]].
      change (Value (Remove e (queue c)) e) with (Value (queue c) e).
      rewrite Hv. simpl. eexists _, _, _. split; [done|].
      split; [apply (queue_inv_unlinked c e k); [done|by eexists]|].
      unfold within_capacity.
      change (set_lookup _ _) with (unlinked c e k).
      rewrite Len_unlinked by done.
      change (capacity (unlinked _ _ _)) with (capacity c). lia.
    + by eexists _, _, _.
  - rewrite go_RemoveOldest_eq.
    destruct (decide (elements (queue c) = [])) as [He|He].
    + eexists _, _, _, _. split; [by apply removeOldest_empty|]. done.
    + destruct (back_of_nonempty _ He) as (l & tail & Hl).
      destruct (entry_at_back _ _ _ Hq Hl) as (en & Hv & Hh).
      assert (Hin : tail ∈ elements (queue c)).
      { rewrite Hl. apply elem_of_app. right. by left. }
      eexists _, _, _, _. split; [by eapply removeOldest_back|].
      split; [by apply queue_inv_unlinked|].
      unfold within_capacity. rewrite Len_unlinked by done.
      change (capacity (unlinked _ _ _)) with (capacity c). lia.
Qed.

(** X16: [Set(k, v)] of [src/lru/lru.go] for a key that is present, with
    room for one more element: the old entry of [k] becomes [(k, v)] and
    moves to the front, and a second entry [(k, v)] is pushed in front of
    it; the callback does not run. *)
Theorem go_Set_present_duplicates c w k v e :
  cache_inv c → mutex c = false → lookup c !! k = Some e →
  (Len (queue c) + 1 ≤ capacity c)%Z →
  ∃ c', lru_go.Cache_Set k v c w = Ret (tt, c', w)
        ∧ entries (queue c')
          = mk_entry k v :: mk_entry k v
              :: filter (λ en, key en ≠ k) (entries (queue c))
        ∧ ¬ cache_inv c'.
Proof.
  intros Hinv Hm Hk Hc. pose proof (ci_queue _ Hinv) as Hq.
  pose proof (Len_refreshed c k v Hq) as Hlen.
  exists (pushed (refreshed c k v) k v).
  assert (Hen : entries (queue (pushed (refreshed c k v) k v))
                = mk_entry k v :: mk_entry k v
                    :: filter (λ en, key en ≠ k) (entries (queue c))).
  { rewrite entries_pushed by (by apply queue_inv_refreshed).
    rewrite (refreshed_present c k v e Hk). simpl.
    by rewrite entries_refresh. }
  split_and!; [apply go_Set_room; [done|lia]|done|].
  intros Hnd%NoDup_keys. unfold keys in Hnd. rewrite Hen in Hnd.
  rewrite !fmap_cons in Hnd. simpl in Hnd.
  apply NoDup_cons in Hnd as [Hn _]. apply Hn. by left.
Qed.

(** X17: [Set(k, v)] of [src/lru/lru.go] for a key that is present, on a
    list that is full: although no key is added, the callback runs once, on
    an entry whose key was stored ([k] itself or another key), and this key
    is no longer in the index. *)
Theorem go_Set_present_evicts c w k v e :
  cache_inv c → mutex c = false → lookup c !! k = Some e →
  (capacity c < Len (queue c) + 1)%Z →
  ∃ c' k' v',
    lru_go.Cache_Set k v c w = Ret (tt, c', onEviction c k' v' w)
    ∧ k' ∈ keys (queue c)
    ∧ lookup c' !! k' = None.
Proof.
  intros Hinv Hm Hk Hc. pose proof (ci_queue _ Hinv) as Hq.
  pose proof (Len_refreshed c k v Hq) as Hlen.
  pose proof (queue_inv_refreshed c k v Hq) as Hq1.
  pose proof (queue_inv_pushed _ k v Hq1) as Hq2.
  destruct (qi_index _ Hq _ _ Hk) as [He _].
  assert (He1 : e ∈ elements (queue (refreshed c k v))).
  { rewrite (refreshed_present c k v e Hk). simpl.
    by apply elem_of_MoveToFront. }
  destruct (back_of_nonempty (elements (queue (refreshed c k v))))
    as (l & tail & Hl).
  { intros Hnil. rewrite Hnil in He1. by apply elem_of_nil in He1. }
  assert (Hel : elements (queue (pushed (refreshed c k v) k v))
                = (next_free (queue (refreshed c k v)) :: l) ++ [tail]).
  { rewrite elements_pushed, Hl. done. }
  destruct (entry_at_back _ _ _ Hq2 Hel) as (en & Hv & _).
  assert (Htl : tail ∈ elements (queue (refreshed c k v))).
  { rewrite Hl. apply elem_of_app. right. by left. }
  exists (unlinked (pushed (refreshed c k v) k v) tail (key en)),
         (key en), (value en).
  split_and!.
  - apply (go_Set_evict c w k v (next_free (queue (refreshed c k v)) :: l)
             tail en); [done|lia|done|done].
  - rewrite Value_pushed_old in Hv
      by (apply (qi_fresh _ Hq1) in Htl; lia).
    rewrite (refreshed_present c k v e Hk) in Hv, Htl. simpl in Hv, Htl.
    apply elem_of_MoveToFront in Htl.
    rewrite Value_SetValue, Value_MoveToFront in Hv.
    destruct (decide (e = tail)) as [->|Hne].
    + injection Hv as <-. simpl. apply (keys_index c k Hinv). by eexists.
    + apply elem_of_keys. exists tail. split; [done|].
      apply holds_as_entry. exists en. by rewrite Hv.
  - simpl. apply lookup_delete_eq.
Qed.

End LruGoInGeneral.

(** ** Empty caches *)
Section EmptyCaches.
Context {K : Type} `{Countable K} {V W : Type}.
Implicit Types (c : Cache K V W) (q : List K V) (e : Element) (k : K) (v : V) (w : W).

(** X18: on the cache [NewCache] returns, whatever the capacity and the
    callback, [Get], [Remove] and [RemoveOldest] of both revisions return
    [nil] with [false], [ListKeys] returns the empty slice, the callback is
    not run and the cache is left as it is. *)
Theorem NewCache_is_empty cap (cb : EvictionCallback K V W) w k :
  let c := NewCache cap cb in
  part_000.Cache_Get k c w = Ret (Nil, false, c, w)
  ∧ part_000.Cache_Remove k c w = Ret (Nil, false, c, w)
  ∧ part_000.Cache_RemoveOldest c w = Ret (Nil, false, c, w)
  ∧ part_000.Cache_ListKeys c w = Ret ([], c, w)
  ∧ lru_go.Cache_Get k c w = Ret (Nil, false, c, w)
  ∧ lru_go.Cache_Remove k c w = Ret (Nil, false, c, w)
  ∧ lru_go.Cache_RemoveOldest c w = Ret (Nil, false, c, w).
Proof.
  intros c. split_and!.
  - by apply Get_absent.
  - by apply Remove_absent.
  - by apply RemoveOldest_empty.
  - rewrite ListKeys_returns; [done|apply cache_inv_NewCache|done].
  - unfold lru_go.Cache_Get. simpl. by rewrite lookup_empty.
  - unfold lru_go.Cache_Remove. simpl. by rewrite lookup_empty.
  - rewrite go_RemoveOldest_eq. by apply removeOldest_empty.
Qed.

(** [Set] on an empty cache whose capacity is not positive. *)
Lemma Set_on_empty_evicts c w k v :
  mutex c = false → elements (queue c) = [] → lookup c = ∅ →
  (capacity c ≤ 0)%Z →
  part_000.Cache_Set k v c w =
    Ret (tt, unlinked (pushed c k v) (next_free (queue c)) k,
         onEviction c k v w)
  ∧ elements (queue (unlinked (pushed c k v) (next_free (queue c)) k)) = []
  ∧ lookup (unlinked (pushed c k v) (next_free (queue c)) k) = ∅.
Proof.
  intros Hm He Hl Hcap. split_and!.
  - apply (Set_absent_evict c w k v [] (next_free (queue c)) (mk_entry k v)).
    + done.
    + rewrite Hl. apply lookup_empty.
    + unfold Len. rewrite He. simpl. lia.
    + rewrite elements_pushed, He. done.
    + apply Value_pushed_new.
  - simpl. rewrite He. by rewrite filter_cons_False by (intros Hc; by apply Hc).
  - simpl. rewrite Hl. by rewrite delete_insert_eq, delete_empty.
Qed.

Lemma reachable_nonpositive_empty cap (cb : EvictionCallback K V W) c :
  (cap ≤ 0)%Z → reachable cap cb c →
  elements (queue c) = [] ∧ lookup c = ∅.
Proof.
  intros Hcap Hr.
  induction Hr as [|c w k v c' w' Hr [He Hl] Hop|c w k r c' w' Hr [He Hl] Hop
                   |c w k r c' w' Hr [He Hl] Hop|c w r c' w' Hr [He Hl] Hop
                   |c w r c' w' Hr [He Hl] Hop]; [done|..];
    destruct (reachable_inv _ _ _ Hr) as (Hinv & Hm & Hcp & _).
  - destruct (Set_on_empty_evicts c w k v Hm He Hl ltac:(lia)) as (Hs & ? & ?).
    rewrite Hs in Hop. by injection Hop as <- _.
  - rewrite Get_absent in Hop by (done || (rewrite Hl; apply lookup_empty)).
    by injection Hop as _ <- _.
  - rewrite Remove_absent in Hop by (done || (rewrite Hl; apply lookup_empty)).
    by injection Hop as _ <- _.
  - rewrite RemoveOldest_empty in Hop by done.
    by injection Hop as _ <- _.
  - rewrite ListKeys_returns in Hop by (done || apply Hinv).
    by injection Hop as _ <- _.
Qed.

(** X19: a cache made with a capacity of 0 or less never stores anything:
    after [NewCache] and any calls of the exported methods of
    [src/unnamed/part_000] the list and the index are empty, and every
    [Set(k, v)] runs the callback once, on [(k, v)] itself, and leaves them
    empty. *)
Theorem nonpositive_capacity_stores_nothing
    cap (cb : EvictionCallback K V W) c w k v :
  (cap ≤ 0)%Z → reachable cap cb c →
  elements (queue c) = [] ∧ lookup c = ∅
  ∧ ∃ c', part_000.Cache_Set k v c w = Ret (tt, c', cb k v w)
          ∧ elements (queue c') = [] ∧ lookup c' = ∅.
Proof.
  intros Hcap Hr.
  destruct (reachable_nonpositive_empty cap cb c Hcap Hr) as [He Hl].
  destruct (reachable_inv _ _ _ Hr) as (Hinv & Hm & Hcp & Hcb & _).
  split_and!; [done..|].
  destruct (Set_on_empty_evicts c w k v Hm He Hl ltac:(lia)) as (Hs & ? & ?).
  eexists. rewrite <- Hcb. by split_and!.
Qed.

End EmptyCaches.

(** ** The theorems at concrete caches *)

Lemma two_entries_built :
  ('(_, c, w) ← part_000.Cache_Set "a" "foo" (NewCache 2 record_evictions) [];
   part_000.Cache_Set "b" "bar" c w) = Ret (tt, two_entries, []).
Proof. by vm_compute. Qed.

Lemma two_entries_inv : cache_inv two_entries.
Proof.
  unfold two_entries. apply cache_inv_pushed; [|by vm_compute].
  apply cache_inv_pushed; [apply cache_inv_NewCache|done].
Defined.

Lemma drained_reachable : reachable 0 record_evictions drained.
Proof.
  apply (reach_Set 0 record_evictions (NewCache 0 record_evictions) [] "x" "y"
           drained [("x", "y")]); [apply reach_NewCache|by vm_compute].
Defined.

Lemma Set_sequence_within_capacity_witness :
  (0 < 1)%Z
  ∧ (∃ c' w', Set_all part_000.Cache_Set (take 2 [("a", "foo"); ("b", "bar")])
                (NewCache 1 record_evictions) [] = Ret (c', w')
              ∧ capacity c' = 1%Z
              ∧ (Len (queue c') ≤ 1)%Z
              ∧ (Z.of_nat (size (lookup c')) ≤ 1)%Z)
  ∧ (∃ c' w', Set_all lru_go.Cache_Set (take 2 [("a", "foo"); ("b", "bar")])
                (NewCache 1 record_evictions) [] = Ret (c', w')
              ∧ capacity c' = 1%Z
              ∧ (Len (queue c') ≤ 1)%Z
              ∧ (Z.of_nat (size (lookup c')) ≤ 1)%Z).
Proof.
  split; [lia|].
  apply (Set_sequence_within_capacity 1%Z record_evictions
           [("a", "foo"); ("b", "bar")] 2 []). lia.
Defined.


Lemma go_duplicated_built :
  ('(_, c, w) ← lru_go.Cache_Set "a" "foo" (NewCache 2 record_evictions) [];
   lru_go.Cache_Set "a" "bar" c w) = Ret (tt, go_duplicated, [])
  ∧ keys (queue go_duplicated) = ["a"; "a"].
Proof. split; by vm_compute. Qed.

Lemma go_duplicated_inv : queue_inv go_duplicated.
Proof.
  unfold go_duplicated. apply queue_inv_pushed, queue_inv_refreshed, ci_queue.
  unfold one_entry. apply cache_inv_pushed; [apply cache_inv_NewCache|done].
Defined.

Lemma RemoveOldest_evicts_least_recent_witness :
  queue_inv go_duplicated
  ∧ ∃ k v c', Value (queue go_duplicated) 0 = OfEntry (mk_entry k v)
      ∧ (mutex go_duplicated = false →
         part_000.Cache_RemoveOldest go_duplicated [] =
           Ret (OfValue v, true, c', onEviction go_duplicated k v []))
      ∧ lru_go.Cache_RemoveOldest go_duplicated [] =
          Ret (OfValue v, true, c', onEviction go_duplicated k v [])
      ∧ elements (queue c') = [1]
      ∧ lookup c' !! k = None
      ∧ (∀ k', k' ≠ k → lookup c' !! k' = lookup go_duplicated !! k').
Proof.
  split; [apply go_duplicated_inv|].
  apply (proj1 (proj2 (RemoveOldest_evicts_least_recent go_duplicated []
                         go_duplicated_inv)) [1] 0).
  reflexivity.
Defined.

Lemma ListKeys_most_recent_first_witness :
  cache_inv two_entries ∧ mutex two_entries = false
  ∧ part_000.Cache_ListKeys two_entries [] =
      Ret (OfKey <$> keys (queue two_entries), two_entries, [])
  ∧ keys (queue two_entries) = ["b"; "a"].
Proof.
  split; [apply two_entries_inv|]. split; [reflexivity|].
  split; [|reflexivity].
  apply (proj1 (ListKeys_most_recent_first two_entries []
                  two_entries_inv eq_refl)).
Defined.

Lemma Set_at_capacity_zero_witness :
  reachable 0 record_evictions drained ∧ lookup drained !! "a" = None
  ∧ ∃ item,
      fst (PushFront (OfEntry (mk_entry "a" "foo")) (queue drained)) = item
      ∧ Back (queue (pushed drained "a" "foo")) = Some item
      ∧ Value (queue (pushed drained "a" "foo")) item = OfEntry (mk_entry "a" "foo")
      ∧ part_000.Cache_Set "a" "foo" drained [("x", "y")] =
          Ret (tt, unlinked (pushed drained "a" "foo") item "a",
               record_evictions "a" "foo" [("x", "y")])
      ∧ elements (queue (unlinked (pushed drained "a" "foo") item "a")) = []
      ∧ lookup (unlinked (pushed drained "a" "foo") item "a") = ∅.
Proof.
  split; [apply drained_reachable|]. split; [reflexivity|].
  apply (Set_at_capacity_zero record_evictions drained [("x", "y")] "a" "foo");
    [apply drained_reachable|reflexivity].
Defined.

Lemma Set_twice_in_place_witness :
  cache_inv two_entries ∧ mutex two_entries = false
  ∧ (1 ≤ capacity two_entries)%Z
  ∧ ∃ c1 w1 c2 e,
      part_000.Cache_Set "a" "x" two_entries [] = Ret (tt, c1, w1)
      ∧ part_000.Cache_Set "a" "y" c1 w1 = Ret (tt, c2, w1)
      ∧ Front (queue c2) = Some e
      ∧ Value (queue c2) e = OfEntry (mk_entry "a" "y")
      ∧ lookup c2 !! "a" = Some e
      ∧ cache_inv c2.
Proof.
  split; [apply two_entries_inv|]. split; [reflexivity|].
  split; [by vm_compute|].
  apply (Set_twice_in_place two_entries [] "a" "x" "y");
    [apply two_entries_inv|reflexivity|by vm_compute].
Defined.

Lemma part_000_keeps_correspondence_witness :
  cache_inv two_entries ∧ mutex two_entries = false
  ∧ ∃ r c' w', part_000.Cache_RemoveOldest two_entries [] = Ret (r, c', w')
               ∧ cache_inv c' ∧ mutex c' = false.
Proof.
  split; [apply two_entries_inv|]. split; [reflexivity|].
  apply (part_000_keeps_correspondence two_entries []
           two_entries_inv eq_refl).
Defined.


Lemma one_entry_inv : cache_inv one_entry.
Proof.
  unfold one_entry. apply cache_inv_pushed; [apply cache_inv_NewCache|done].
Defined.

Lemma noop_full_inv : cache_inv noop_full.
Proof.
  unfold noop_full. apply cache_inv_pushed; [apply cache_inv_NewCache|done].
Defined.

Lemma Set_acts_on_entries_witness :
  cache_inv two_entries ∧ mutex two_entries = false
  ∧ ∃ c' w',
      part_000.Cache_Set "c" "baz" two_entries [] = Ret (tt, c', w')
      ∧ match lookup two_entries !! "c" with
        | Some _ =>
            entries (queue c')
            = mk_entry "c" "baz"
                :: filter (λ en, key en ≠ "c") (entries (queue two_entries))
            ∧ w' = []
        | None =>
            if decide (Len (queue two_entries) + 1 ≤ capacity two_entries)%Z
            then entries (queue c')
                 = mk_entry "c" "baz" :: entries (queue two_entries)
                 ∧ w' = []
            else ∃ l en,
                   mk_entry "c" "baz" :: entries (queue two_entries) = l ++ [en]
                   ∧ entries (queue c') = l
                   ∧ w' = onEviction two_entries (key en) (value en) []
        end.
Proof.
  split; [apply two_entries_inv|]. split; [reflexivity|].
  apply (Set_acts_on_entries two_entries [] "c" "baz");
    [apply two_entries_inv|reflexivity].
Defined.

Lemma Get_acts_on_entries_witness :
  cache_inv two_entries ∧ mutex two_entries = false
  ∧ match lookup two_entries !! "a" with
    | Some _ =>
        ∃ v c',
          part_000.Cache_Get "a" two_entries [] =
            Ret (OfEntry (mk_entry "a" v), true, c', [])
          ∧ mk_entry "a" v ∈ entries (queue two_entries)
          ∧ entries (queue c')
            = mk_entry "a" v
                :: filter (λ en, key en ≠ "a") (entries (queue two_entries))
          ∧ lookup c' = lookup two_entries
    | None =>
        part_000.Cache_Get "a" two_entries [] = Ret (Nil, false, two_entries, [])
        ∧ "a" ∉ keys (queue two_entries)
    end.
Proof.
  split; [apply two_entries_inv|]. split; [reflexivity|].
  apply (Get_acts_on_entries two_entries [] "a");
    [apply two_entries_inv|reflexivity].
Defined.

Lemma Remove_acts_on_entries_witness :
  cache_inv two_entries ∧ mutex two_entries = false
  ∧ match lookup two_entries !! "a" with
    | Some _ =>
        ∃ v c',
          part_000.Cache_Remove "a" two_entries [] =
            Ret (OfValue v, true, c', [])
          ∧ mk_entry "a" v ∈ entries (queue two_entries)
          ∧ entries (queue c')
            = filter (λ en, key en ≠ "a") (entries (queue two_entries))
          ∧ lookup c' = delete "a" (lookup two_entries)
    | None =>
        part_000.Cache_Remove "a" two_entries [] =
          Ret (Nil, false, two_entries, [])
    end.
Proof.
  split; [apply two_entries_inv|]. split; [reflexivity|].
  apply (Remove_acts_on_entries two_entries [] "a");
    [apply two_entries_inv|reflexivity].
Defined.

Lemma RemoveOldest_acts_on_entries_witness :
  cache_inv two_entries ∧ mutex two_entries = false
  ∧ entries (queue two_entries) = [mk_entry "b" "bar"] ++ [mk_entry "a" "foo"]
  ∧ ∃ c', part_000.Cache_RemoveOldest two_entries [] =
            Ret (OfValue "foo", true, c',
                 onEviction two_entries "a" "foo" [])
          ∧ entries (queue c') = [mk_entry "b" "bar"]
          ∧ lookup c' = delete "a" (lookup two_entries).
Proof.
  split; [apply two_entries_inv|]. split; [reflexivity|].
  split; [reflexivity|].
  apply (proj2 (RemoveOldest_acts_on_entries two_entries []
                  two_entries_inv eq_refl)
           [mk_entry "b" "bar"] (mk_entry "a" "foo")).
  reflexivity.
Defined.

Lemma Set_then_Get_witness :
  cache_inv two_entries ∧ mutex two_entries = false
  ∧ (1 ≤ capacity two_entries)%Z
  ∧ ∃ c1 w1,
      part_000.Cache_Set "c" "baz" two_entries [] = Ret (tt, c1, w1)
      ∧ head (entries (queue c1)) = Some (mk_entry "c" "baz")
      ∧ part_000.Cache_Get "c" c1 w1 =
          Ret (OfEntry (mk_entry "c" "baz"), true, c1, w1).
Proof.
  split; [apply two_entries_inv|]. split; [reflexivity|].
  split; [by vm_compute|].
  apply (Set_then_Get two_entries [] "c" "baz");
    [apply two_entries_inv|reflexivity|by vm_compute].
Defined.

Lemma Set_then_Remove_then_Get_witness :
  cache_inv two_entries ∧ mutex two_entries = false
  ∧ (1 ≤ capacity two_entries)%Z
  ∧ ∃ c1 w1 c2,
      part_000.Cache_Set "c" "baz" two_entries [] = Ret (tt, c1, w1)
      ∧ part_000.Cache_Remove "c" c1 w1 = Ret (OfValue "baz", true, c2, w1)
      ∧ part_000.Cache_Get "c" c2 w1 = Ret (Nil, false, c2, w1)
      ∧ part_000.Cache_Remove "c" c2 w1 = Ret (Nil, false, c2, w1).
Proof.
  split; [apply two_entries_inv|]. split; [reflexivity|].
  split; [by vm_compute|].
  apply (Set_then_Remove_then_Get two_entries [] "c" "baz");
    [apply two_entries_inv|reflexivity|by vm_compute].
Defined.

Lemma Get_twice_witness :
  cache_inv two_entries ∧ mutex two_entries = false
  ∧ ∃ r ok c1,
      part_000.Cache_Get "a" two_entries [] = Ret (r, ok, c1, [])
      ∧ part_000.Cache_Get "a" c1 [] = Ret (r, ok, c1, []).
Proof.
  split; [apply two_entries_inv|]. split; [reflexivity|].
  apply (Get_twice two_entries [] "a"); [apply two_entries_inv|reflexivity].
Defined.

Lemma Noop_leaves_state_witness :
  cache_inv noop_full ∧ mutex noop_full = false
  ∧ onEviction noop_full = part_000.Noop
  ∧ (∀ k v, ∃ c', part_000.Cache_Set k v noop_full tt = Ret (tt, c', tt))
  ∧ (∃ r ok c', part_000.Cache_RemoveOldest noop_full tt = Ret (r, ok, c', tt)).
Proof.
  split; [apply noop_full_inv|]. split; [reflexivity|].
  split; [reflexivity|].
  apply (Noop_leaves_state noop_full tt); [apply noop_full_inv|reflexivity..].
Defined.

Lemma index_size_eq_Len_witness :
  cache_inv two_entries
  ∧ Z.of_nat (size (lookup two_entries)) = Len (queue two_entries).
Proof.
  split; [apply two_entries_inv|].
  apply (index_size_eq_Len two_entries), two_entries_inv.
Defined.

Lemma reachable_cache_sound_witness :
  reachable 0 record_evictions drained
  ∧ cache_inv drained ∧ mutex drained = false ∧ capacity drained = 0%Z
  ∧ onEviction drained = record_evictions
  ∧ ((0 ≤ 0)%Z → (Len (queue drained) ≤ 0)%Z).
Proof.
  split; [apply drained_reachable|].
  apply (reachable_cache_sound 0%Z record_evictions drained).
  apply drained_reachable.
Defined.

Lemma go_methods_keep_queue_inv_witness :
  queue_inv two_entries
  ∧ (mutex two_entries = false →
     ∀ k v, ∃ c' w', lru_go.Cache_Set k v two_entries [] = Ret (tt, c', w')
                     ∧ queue_inv c'
                     ∧ (within_capacity two_entries → within_capacity c'))
  ∧ (∀ k, ∃ r ok c', lru_go.Cache_Get k two_entries [] = Ret (r, ok, c', [])
                     ∧ queue_inv c'
                     ∧ (within_capacity two_entries → within_capacity c'))
  ∧ (∀ k, ∃ r ok c', lru_go.Cache_Remove k two_entries [] = Ret (r, ok, c', [])
                     ∧ queue_inv c'
                     ∧ (within_capacity two_entries → within_capacity c'))
  ∧ (∃ r ok c' w', lru_go.Cache_RemoveOldest two_entries [] = Ret (r, ok, c', w')
                   ∧ queue_inv c'
                   ∧ (within_capacity two_entries → within_capacity c')).
Proof.
  split; [apply two_entries_inv|].
  apply (go_methods_keep_queue_inv two_entries []), two_entries_inv.
Defined.

Lemma go_Set_present_duplicates_witness :
  cache_inv one_entry ∧ mutex one_entry = false
  ∧ lookup one_entry !! "a" = Some 0
  ∧ (Len (queue one_entry) + 1 ≤ capacity one_entry)%Z
  ∧ ∃ c', lru_go.Cache_Set "a" "bar" one_entry [] = Ret (tt, c', [])
          ∧ entries (queue c')
            = mk_entry "a" "bar" :: mk_entry "a" "bar"
                :: filter (λ en, key en ≠ "a") (entries (queue one_entry))
          ∧ ¬ cache_inv c'.
Proof.
  split; [apply one_entry_inv|]. split; [reflexivity|].
  split; [reflexivity|]. split; [by vm_compute|].
  apply (go_Set_present_duplicates one_entry [] "a" "bar" 0);
    [apply one_entry_inv|reflexivity|reflexivity|by vm_compute].
Defined.

Lemma go_Set_present_evicts_witness :
  cache_inv two_entries ∧ mutex two_entries = false
  ∧ lookup two_entries !! "a" = Some 0
  ∧ (capacity two_entries < Len (queue two_entries) + 1)%Z
  ∧ ∃ c' k' v',
      lru_go.Cache_Set "a" "baz" two_entries [] =
        Ret (tt, c', onEviction two_entries k' v' [])
      ∧ k' ∈ keys (queue two_entries)
      ∧ lookup c' !! k' = None.
Proof.
  split; [apply two_entries_inv|]. split; [reflexivity|].
  split; [reflexivity|]. split; [by vm_compute|].
  apply (go_Set_present_evicts two_entries [] "a" "baz" 0);
    [apply two_entries_inv|reflexivity|reflexivity|by vm_compute].
Defined.

Lemma nonpositive_capacity_stores_nothing_witness :
  (-1 ≤ 0)%Z
  ∧ reachable (-1) record_evictions (NewCache (-1) record_evictions)
  ∧ elements (queue (NewCache (-1) record_evictions)) = []
  ∧ lookup (NewCache (-1) record_evictions) = ∅
  ∧ ∃ c', part_000.Cache_Set "a" "foo" (NewCache (-1) record_evictions) [] =
            Ret (tt, c', record_evictions "a" "foo" [])
          ∧ elements (queue c') = [] ∧ lookup c' = ∅.
Proof.
  split; [lia|]. split; [apply reach_NewCache|].
  apply (nonpositive_capacity_stores_nothing (-1)%Z record_evictions
           (NewCache (-1) record_evictions) [] "a" "foo");
    [lia|apply reach_NewCache].
Defined.
